(** * Accessibility scanner: crawl-and-scan orchestrator

    A shallow embedding of [main.go] (the scan API of the accessibility
    scanner) and the properties of its crawl loop, audit mapping, status
    classification, request validation and environment file loader.

    Conventions of the embedding:
    - Go [int] values are [Z].  The only arithmetic the program does on
      them is [urlIndex++], once per loop iteration, so no wrap-around is
      reachable; everything else is comparison.
    - Go [float64] is Rocq's primitive binary64 [float].
    - [map[string]bool] is [gmap string bool]; reading a missing key gives
      the zero value [false].
    - Slices are lists; [append(xs, x)] is [xs ++ [x]]; a nil slice is [[]].
    - Strings are [string]; [loadEnvFile], which takes strings apart byte
      by byte, works on their bytes, a [list ascii].
    - The network, the clock and the context are a [World] of oracles,
      indexed by the number of the loop iteration that consults them. *)

From Stdlib Require Import ZArith List Bool Lia PrimFloat DecimalString Ascii.
From stdpp Require Import gmap strings list fin_maps.

Local Open Scope string_scope.
Local Open Scope list_scope.

(** ** Data model *)

(** [LighthouseResult.Audits[..].Details.Items[..]], with its [Node]
    flattened into the item. *)
Record AuditItem := {
  item_NodeType : string;
  item_Selector : string;
  item_Snippet : string;
  item_Impact : string;
  item_Description : string;
}.

(** One value of the [Audits] map. *)
Record Audit := {
  audit_ID : string;
  audit_Title : string;
  audit_Description : string;
  audit_Score : float;
  audit_ScoreDisplayMode : string;
  audit_DetailsType : string;
  audit_Items : list AuditItem;
}.

Record LighthouseResult := {
  lh_Score : float;          (* Categories.Accessibility.Score *)
  lh_Title : string;         (* Categories.Accessibility.Title *)
  lh_Audits : gmap string Audit;
}.

Record AccessibilityIssue := {
  AuditID : string;
  Title : string;
  Description : string;
  Impact : string;
  Selector : string;
  Snippet : string;
}.

Record PageResult := {
  URL : string;
  AccessibilityScore : float;
  Issues : list AccessibilityIssue;
  Error : string;
}.

Record ScanConfig := {
  cfg_MaxPages : Z;
  cfg_Offset : Z;
  cfg_Limit : Z;
}.

Record ScanResult := {
  BaseURL : string;
  ScanTime : Z;
  TotalPages : Z;
  PageResults : list PageResult;
  UrlsDiscovered : list string;
  UrlsVisited : list string;
  ScanConfig_ : ScanConfig;
  Status : string;
}.

Record ScanRequest := {
  req_URL : string;
  req_MaxPages : Z;
  req_Offset : Z;
  req_Limit : Z;
}.

Record ErrorResponse := {
  err_Error : string;
  err_Code : Z;
  err_Message : string;
}.

(** The scanner object; its [client] is the [World] below. *)
Record AccessibilityScanner := {
  apiKey : string;
  baseURL : string;
  maxPages : Z;
  offset : Z;
  limit : Z;
  visited : gmap string bool;
  urlsDiscovered : list string;
}.

Definition NewAccessibilityScanner (key base : string) (maxP off lim : Z)
  : AccessibilityScanner :=
  {| apiKey := key; baseURL := base; maxPages := maxP; offset := off;
     limit := lim; visited := ∅; urlsDiscovered := [] |}.

(** ** The outside world *)

(** Outcome of [json.NewDecoder(resp.Body).Decode]. *)
Inductive Decoded :=
| DecodeErr (err : string)
| DecodeOk (lr : LighthouseResult).

(** Outcome of [s.client.Get(lighthouseURL)]: a transport error, or a
    response with its status code, its raw body and what the body decodes
    to. *)
Inductive GetReply :=
| GetErr (err : string)
| GetResp (StatusCode : Z) (body : string) (dec : Decoded).

(** [ctxDone n]: the context is done when iteration [n] polls it.
    [lighthouseGet n u key]: what the audit service answers in iteration
    [n] to the request built from page [u] and the API key.
    [pageAnchors n u]: [None] when any fallible step of [extractLinks]
    before the tree walk fails (request, transport, status >= 400, URL or
    HTML parsing); otherwise the [finalURL] values with which [findLinks]
    reaches its duplicate check (anchors whose [href] parses and resolves
    to the base host), in the order the walk reaches them.
    [rangeOrder n]: the order in which [range] visits the entries of the
    audits map in iteration [n] (unspecified in Go).
    [timeNow]: [time.Now()] at the start of the run. *)
Record World := {
  ctxDone : nat -> bool;
  lighthouseGet : nat -> string -> string -> GetReply;
  pageAnchors : nat -> string -> option (list string);
  rangeOrder : nat -> list (string * Audit) -> list (string * Audit);
  timeNow : Z;
}.

(** ** [scanPageWithLighthouse] *)

(** [fmt.Sprintf] with verb [%d]. *)
Definition fmt_d (n : Z) : string := NilZero.string_of_int (Z.to_int n).

Definition http_StatusOK : Z := 200.
Definition http_StatusBadRequest : Z := 400.
Definition http_StatusMethodNotAllowed : Z := 405.
Definition http_StatusInternalServerError : Z := 500.

Definition itemIssue (auditID : string) (audit : Audit) (item : AuditItem)
  : AccessibilityIssue :=
  {| AuditID := auditID;
     Title := audit_Title audit;
     Description := audit_Description audit;
     Impact := item_Impact item;
     Selector := item_Selector item;
     Snippet := item_Snippet item |}.

Definition unknownIssue (auditID : string) (audit : Audit)
  : AccessibilityIssue :=
  {| AuditID := auditID;
     Title := audit_Title audit;
     Description := audit_Description audit;
     Impact := "unknown";
     Selector := "";
     Snippet := "" |}.

(** The guard of the audits loop:
    [audit.ScoreDisplayMode == "binary" && audit.Score < 1.0]. *)
Definition auditFails (audit : Audit) : bool :=
  String.eqb (audit_ScoreDisplayMode audit) "binary"
  && PrimFloat.ltb (audit_Score audit) 1%float.

(** Body of [for auditID, audit := range ...Audits]. *)
Definition auditsBody (issues : list AccessibilityIssue)
    (entry : string * Audit) : list AccessibilityIssue :=
  let '(auditID, audit) := entry in
  if auditFails audit then
    let issues :=
      fold_left (fun acc item => acc ++ [itemIssue auditID audit item])
                (audit_Items audit) issues in
    if Nat.eqb (length (audit_Items audit)) 0
    then issues ++ [unknownIssue auditID audit]
    else issues
  else issues.

Definition withError (result : PageResult) (e : string) : PageResult :=
  {| URL := URL result; AccessibilityScore := AccessibilityScore result;
     Issues := Issues result; Error := e |}.

Definition scanPageWithLighthouse (w : World) (n : nat)
    (s : AccessibilityScanner) (pageURL : string) : PageResult :=
  let result := {| URL := pageURL; AccessibilityScore := 0%float;
                   Issues := []; Error := "" |} in
  match lighthouseGet w n pageURL (apiKey s) with
  | GetErr err =>
      withError result ("Failed to call Lighthouse API: " +:+ err)
  | GetResp code body dec =>
      if negb (Z.eqb code http_StatusOK) then
        withError result
          ("Lighthouse API error (status " +:+ fmt_d code +:+ "): " +:+ body)
      else
        match dec with
        | DecodeErr err =>
            withError result
              ("Failed to decode Lighthouse response: " +:+ err)
        | DecodeOk lr =>
            {| URL := URL result;
               AccessibilityScore := lh_Score lr;
               Issues := fold_left auditsBody
                           (rangeOrder w n (map_to_list (lh_Audits lr)))
                           (Issues result);
               Error := Error result |}
        end
  end.

(** ** [extractLinks] *)

(** The two linear searches of [findLinks]. *)
Definition containsURL (l : list string) (finalURL : string) : bool :=
  existsb (fun existing => String.eqb existing finalURL) l.

(** What [findLinks] does with one in-scope [finalURL]; the state is the
    local [links] and the scanner's [urlsDiscovered]. *)
Definition findLinksVisit (st : list string * list string)
    (finalURL : string) : list string * list string :=
  let '(links, discovered) := st in
  let isDuplicate := containsURL links finalURL in
  if negb isDuplicate then
    let links := links ++ [finalURL] in
    let alreadyDiscovered := containsURL discovered finalURL in
    if negb alreadyDiscovered
    then (links, discovered ++ [finalURL])
    else (links, discovered)
  else (links, discovered).

Definition withDiscovered (s : AccessibilityScanner) (d : list string)
  : AccessibilityScanner :=
  {| apiKey := apiKey s; baseURL := baseURL s; maxPages := maxPages s;
     offset := offset s; limit := limit s; visited := visited s;
     urlsDiscovered := d |}.

Definition withVisited (s : AccessibilityScanner) (v : gmap string bool)
  : AccessibilityScanner :=
  {| apiKey := apiKey s; baseURL := baseURL s; maxPages := maxPages s;
     offset := offset s; limit := limit s; visited := v;
     urlsDiscovered := urlsDiscovered s |}.

(** Returns the scanner after the call and [(links, err)], with [None]
    for a non-nil [err]. *)
Definition extractLinks (w : World) (n : nat) (s : AccessibilityScanner)
    (pageURL : string) : AccessibilityScanner * option (list string) :=
  match pageAnchors w n pageURL with
  | None => (s, None)
  | Some anchors =>
      let '(links, discovered) :=
        fold_left findLinksVisit anchors ([], urlsDiscovered s) in
      (withDiscovered s discovered, Some links)
  end.

(** ** [crawlAndScan] *)

(** What one loop iteration did, recorded as it runs: whether the
    [ctx.Done()] case fired, the URL dequeued, [urlIndex] at the dequeue
    (the processing rank), [len(s.urlsDiscovered)] at the dequeue,
    [len(queue)] after it, whether [scanPageWithLighthouse] was called and
    whether [extractLinks] was called. *)
Record Iteration := {
  it_cancelled : bool;
  it_url : string;
  it_rank : Z;
  it_discovered : nat;
  it_queued : nat;
  it_audited : bool;
  it_extracted : bool;
}.

(** The variables live across the loop of [crawlAndScan]. *)
Record Crawl := {
  scanner : AccessibilityScanner;
  queue : list string;
  urlIndex : Z;
  pageResults : list PageResult;   (* result.PageResults *)
  status : string;                 (* result.Status *)
  iterations : list Iteration;
}.

(** [s.visited[link]]. *)
Definition isVisited (v : gmap string bool) (link : string) : bool :=
  default false (v !! link).

(** Body of [for _, link := range links]. *)
Definition enqueueLink (maxP : Z) (st : gmap string bool * list string)
    (link : string) : gmap string bool * list string :=
  let '(vis, q) := st in
  if negb (isVisited vis link) && (Z.of_nat (length q) <? maxP)%Z
  then (<[link := true]> vis, q ++ [link])
  else (vis, q).

(** [links, err := s.extractLinks(currentURL); if err == nil { for ... }],
    the block both branches of the loop share. *)
Definition followLinks (w : World) (n : nat) (s : AccessibilityScanner)
    (q : list string) (currentURL : string)
  : AccessibilityScanner * list string :=
  match extractLinks w n s currentURL with
  | (s, None) => (s, q)
  | (s, Some links) =>
      let '(vis, q) := fold_left (enqueueLink (maxPages s)) links
                                 (visited s, q) in
      (withVisited s vis, q)
  end.

Definition lenZ {A} (l : list A) : Z := Z.of_nat (length l).

Definition iteration (w : World) (n : nat) (c : Crawl) : Crawl :=
  (* select { case <-ctx.Done(): status = "cancelled"; break  default: } :
     the break leaves the select statement *)
  let cancelled := ctxDone w n in
  let status := if cancelled then "cancelled" else status c in
  match queue c with
  | [] => c    (* not reached: the loop condition has len(queue) > 0 *)
  | currentURL :: queue =>
      let s := scanner c in
      let record audited extracted :=
        {| it_cancelled := cancelled; it_url := currentURL;
           it_rank := urlIndex c;
           it_discovered := length (urlsDiscovered s);
           it_queued := length queue;
           it_audited := audited; it_extracted := extracted |} in
      if (urlIndex c <? offset s)%Z then
        let urlIndex := (urlIndex c + 1)%Z in
        if (lenZ queue <? maxPages s)%Z then
          let '(s, queue) := followLinks w n s queue currentURL in
          {| scanner := s; queue := queue; urlIndex := urlIndex;
             pageResults := pageResults c; status := status;
             iterations := iterations c ++ [record false true] |}
        else
          {| scanner := s; queue := queue; urlIndex := urlIndex;
             pageResults := pageResults c; status := status;
             iterations := iterations c ++ [record false false] |}
      else
        let urlIndex := (urlIndex c + 1)%Z in
        let pageResult := scanPageWithLighthouse w n s currentURL in
        let pageResults := pageResults c ++ [pageResult] in
        (* time.Sleep(1 * time.Second) *)
        if String.eqb (Error pageResult) "" && (lenZ queue <? maxPages s)%Z
        then
          let '(s, queue) := followLinks w n s queue currentURL in
          {| scanner := s; queue := queue; urlIndex := urlIndex;
             pageResults := pageResults; status := status;
             iterations := iterations c ++ [record true true] |}
        else
          {| scanner := s; queue := queue; urlIndex := urlIndex;
             pageResults := pageResults; status := status;
             iterations := iterations c ++ [record true false] |}
  end.

(** [len(queue) > 0 && len(result.PageResults) < s.limit]. *)
Definition loopCond (c : Crawl) : bool :=
  (0 <? lenZ (queue c))%Z && (lenZ (pageResults c) <? limit (scanner c))%Z.

(** The [for] loop, [n] being the number of the next iteration.  The
    fuel only makes the recursion structural: [crawlLoop_exits] shows
    that [crawlFuel] iterations always reach a false loop condition. *)
Fixpoint crawlLoop (w : World) (fuel n : nat) (c : Crawl) : Crawl :=
  match fuel with
  | O => c
  | S fuel =>
      if loopCond c then crawlLoop w fuel (S n) (iteration w n c) else c
  end.

Definition crawlFuel (s : AccessibilityScanner) : nat :=
  Z.to_nat (offset s) + Z.to_nat (limit s).

(** State at the loop head: the seed queued, marked visited and recorded
    as discovered. *)
Definition crawlInit (s : AccessibilityScanner) : Crawl :=
  {| scanner := withDiscovered (withVisited s (<[baseURL s := true]> (visited s)))
                               (urlsDiscovered s ++ [baseURL s]);
     queue := [baseURL s];
     urlIndex := 0;
     pageResults := [];
     status := "completed";
     iterations := [] |}.

(** State when the loop is left. *)
Definition crawl (w : World) (s : AccessibilityScanner) : Crawl :=
  crawlLoop w (crawlFuel s) 0 (crawlInit s).

(** [for _, page := range result.PageResults { if page.Error != "" ... }] *)
Definition hasErrors (prs : list PageResult) : bool :=
  existsb (fun page => negb (String.eqb (Error page) "")) prs.

(** The status computation that ends [crawlAndScan]. *)
Definition finalStatus (st : string) (prs : list PageResult) : string :=
  if negb (String.eqb st "cancelled") && (lenZ prs =? 0)%Z then "failed"
  else if negb (String.eqb st "cancelled") then
    if hasErrors prs then "partial" else st
  else st.

Definition crawlAndScan (w : World) (s : AccessibilityScanner) : ScanResult :=
  let c := crawl w s in
  {| BaseURL := baseURL s;
     ScanTime := timeNow w;
     TotalPages := lenZ (pageResults c);
     PageResults := pageResults c;
     UrlsDiscovered := urlsDiscovered (scanner c);
     UrlsVisited := fold_left (fun acc pageResult => acc ++ [URL pageResult])
                              (pageResults c) [];
     ScanConfig_ := {| cfg_MaxPages := maxPages s; cfg_Offset := offset s;
                       cfg_Limit := limit s |};
     Status := finalStatus (status c) (pageResults c) |}.

(** The per-iteration record of the same run. *)
Definition crawlTrace (w : World) (s : AccessibilityScanner) : list Iteration :=
  iterations (crawl w s).

(** ** [handleScan] *)

(** Go's [int] has the word size of the platform the server is built
    for. *)
Inductive WordSize := Bits32 | Bits64.

Definition intBits (ws : WordSize) : Z :=
  match ws with Bits32 => 32 | Bits64 => 64 end.

(** Whether an integer is a value of [int]. *)
Definition intFits (ws : WordSize) (n : Z) : bool :=
  (- 2 ^ (intBits ws - 1) <=? n)%Z && (n <? 2 ^ (intBits ws - 1))%Z.

(** A request body that is a JSON object: the [url] string and the three
    integer literals, each present or absent. *)
Record JSONBody := {
  json_url : option string;
  json_max_pages : option Z;
  json_offset : option Z;
  json_limit : option Z;
}.

(** Decoding one [int] field: an absent field leaves the Go zero value;
    a literal outside the range of [int] is a decoding error. *)
Definition decodeInt (ws : WordSize) (v : option Z) : option Z :=
  match v with
  | None => Some 0%Z
  | Some n => if intFits ws n then Some n else None
  end.

(** [json.NewDecoder(r.Body).Decode(&req)] on such an object; [None]
    for a non-nil error. *)
Definition decodeScanRequest (ws : WordSize) (b : JSONBody)
  : option ScanRequest :=
  match decodeInt ws (json_max_pages b), decodeInt ws (json_offset b),
        decodeInt ws (json_limit b) with
  | Some maxP, Some off, Some lim =>
      Some {| req_URL := default "" (json_url b);
              req_MaxPages := maxP; req_Offset := off; req_Limit := lim |}
  | _, _, _ => None
  end.

(** The parts of an [http.Request] the handler reads; [None] is a body
    that is not such an object (malformed JSON, or a field of the wrong
    JSON type). *)
Record Request := {
  Method : string;
  Body : option JSONBody;
}.

(** The process: its environment, its word size, and [url.Parse]'s
    verdict on a string. *)
Record Host := {
  getenv : string -> string;
  urlParses : string -> bool;
  wordSize : WordSize;
}.

Definition getAPIKey (h : Host) : string :=
  if negb (String.eqb (getenv h "GOOGLE_API_KEY") "")
  then getenv h "GOOGLE_API_KEY"
  else if negb (String.eqb (getenv h "PAGESPEED_API_KEY") "")
  then getenv h "PAGESPEED_API_KEY"
  else if negb (String.eqb (getenv h "LIGHTHOUSE_API_KEY") "")
  then getenv h "LIGHTHOUSE_API_KEY"
  else "".

Definition sendError (error : string) (code : Z) (message : string)
  : ErrorResponse :=
  {| err_Error := error; err_Code := code; err_Message := message |}.

(** The "Set defaults" block. *)
Definition setDefaults (req : ScanRequest) : ScanRequest :=
  let maxP := if (req_MaxPages req =? 0)%Z then 50%Z else req_MaxPages req in
  let lim := if (req_Limit req =? 0)%Z then 5%Z else req_Limit req in
  {| req_URL := req_URL req; req_MaxPages := maxP;
     req_Offset := req_Offset req; req_Limit := lim |}.

(** The "Validate ranges" block; [None] when every check passes. *)
Definition validateRanges (req : ScanRequest) : option ErrorResponse :=
  if (req_MaxPages req <? 1)%Z || (1000 <? req_MaxPages req)%Z then
    Some (sendError "Invalid max_pages" http_StatusBadRequest
                    "max_pages must be between 1 and 1000")
  else if (req_Limit req <? 1)%Z || (100 <? req_Limit req)%Z then
    Some (sendError "Invalid limit" http_StatusBadRequest
                    "limit must be between 1 and 100")
  else if (req_Offset req <? 0)%Z then
    Some (sendError "Invalid offset" http_StatusBadRequest
                    "offset cannot be negative")
  else None.

Definition handleScan (h : Host) (w : World) (r : Request)
  : ErrorResponse + ScanResult :=
  if negb (String.eqb (Method r) "POST") then
    inl (sendError "Method not allowed" http_StatusMethodNotAllowed
                   "Only POST method is supported")
  else
    match Body r with
    | None =>
        inl (sendError "Invalid JSON" http_StatusBadRequest
                       "Request body must be valid JSON")
    | Some body =>
        match decodeScanRequest (wordSize h) body with
        | None =>
            inl (sendError "Invalid JSON" http_StatusBadRequest
                           "Request body must be valid JSON")
        | Some req =>
            if String.eqb (req_URL req) "" then
              inl (sendError "Missing URL" http_StatusBadRequest
                             "URL is required")
            else if negb (urlParses h (req_URL req)) then
              inl (sendError "Invalid URL" http_StatusBadRequest
                             "URL must be valid")
            else
              let req := setDefaults req in
              match validateRanges req with
              | Some e => inl e
              | None =>
                  let apiKey := getAPIKey h in
                  if String.eqb apiKey "" then
                    inl (sendError "Configuration error"
                                   http_StatusInternalServerError
                                   "Google API key not configured")
                  else
                    let scanner :=
                      NewAccessibilityScanner apiKey (req_URL req)
                        (req_MaxPages req) (req_Offset req) (req_Limit req) in
                    inr (crawlAndScan w scanner)
              end
        end
    end.

(** ** [loadEnvFile] *)

(** Go strings are byte sequences; this part works on the bytes. *)
Definition byte (n : nat) : ascii := ascii_of_nat n.

Definition eqSign : ascii := byte 61.    (* = *)
Definition hashSign : ascii := byte 35.  (* # *)
Definition dquote : ascii := byte 34.    (* double quote *)
Definition squote : ascii := byte 39.    (* single quote *)

(** The UTF-8 encodings of the code points for which [unicode.IsSpace]
    holds: U+0009 to U+000D, U+0020, U+0085, U+00A0, U+1680, U+2000 to
    U+200A, U+2028, U+2029, U+202F, U+205F and U+3000. *)
Definition spaceRunes : list (list ascii) :=
  [[byte 9]; [byte 10]; [byte 11]; [byte 12]; [byte 13]; [byte 32];
   [byte 194; byte 133]; [byte 194; byte 160];
   [byte 225; byte 154; byte 128]]
  ++ ((fun b => [byte 226; byte 128; byte b]) <$> seq 128 11)
  ++ [[byte 226; byte 128; byte 168]; [byte 226; byte 128; byte 169];
      [byte 226; byte 128; byte 175]; [byte 226; byte 129; byte 159];
      [byte 227; byte 128; byte 128]].

(** [strings.HasPrefix(l, r)]. *)
Fixpoint startsWith (r l : list ascii) : bool :=
  match r, l with
  | [], _ => true
  | c :: r, d :: l => Ascii.eqb c d && startsWith r l
  | _ :: _, [] => false
  end.

(** [strings.HasSuffix(l, r)]. *)
Definition endsWith (r l : list ascii) : bool :=
  startsWith (reverse r) (reverse l).

(** [l] without the rune of [runes] it starts with; [None] when it
    starts with none. *)
Fixpoint stripRune (runes : list (list ascii)) (l : list ascii)
  : option (list ascii) :=
  match runes with
  | [] => None
  | r :: runes =>
      if startsWith r l then Some (drop (length r) l) else stripRune runes l
  end.

(** Strip leading runes of [runes] for as long as there is one; [fuel]
    bounds the number of runes stripped. *)
Fixpoint trimStart (runes : list (list ascii)) (fuel : nat) (l : list ascii)
  : list ascii :=
  match fuel with
  | O => l
  | S fuel =>
      match stripRune runes l with
      | Some l' => trimStart runes fuel l'
      | None => l
      end
  end.

(** [strings.TrimSpace]: the string without its leading and trailing
    white space code points.  A byte sequence decodes to a white space
    code point exactly when it is one of [spaceRunes], both from the
    front and from the back of a string. *)
Definition TrimSpace (l : list ascii) : list ascii :=
  let l := trimStart spaceRunes (length l) l in
  reverse (trimStart (reverse <$> spaceRunes) (length l) (reverse l)).

(** [strings.SplitN(l, "=", 2)] when it has two parts: what is before
    and after the first [=]; [None] when [l] has no [=] and the result
    has one part. *)
Fixpoint splitEq (l : list ascii) : option (list ascii * list ascii) :=
  match l with
  | [] => None
  | c :: l =>
      if Ascii.eqb c eqSign then Some ([], l)
      else match splitEq l with
           | Some (p0, p1) => Some (c :: p0, p1)
           | None => None
           end
  end.

(** What the body of the scanning loop does with one line: nothing
    ([continue]), one call of [os.Setenv], or a run-time panic. *)
Inductive LineEffect :=
| LineSkip
| LineSetenv (key value : list ascii)
| LinePanic.

(** The condition under which the value loses its first and last byte. *)
Definition quoted (value : list ascii) : bool :=
  (startsWith [dquote] value && endsWith [dquote] value)
  || (startsWith [squote] value && endsWith [squote] value).

(** Body of [for scanner.Scan()], on [scanner.Text()]. *)
Definition envLine (text : list ascii) : LineEffect :=
  let line := TrimSpace text in
  if bool_decide (line = []) || startsWith [hashSign] line then LineSkip
  else
    match splitEq line with
    | None => LineSkip                 (* len(parts) != 2 *)
    | Some (p0, p1) =>
        let key := TrimSpace p0 in
        let value := TrimSpace p1 in
        if quoted value
        then
          (* value[1 : len(value)-1] panics when 1 > len(value)-1 *)
          if (length value <? 2)%nat then LinePanic
          else LineSetenv key (take (length value - 2) (drop 1 value))
        else LineSetenv key value
    end.

(** What [os.Open] and the scanner deliver: an error of [os.Open], or
    the successive values of [scanner.Text()] and the final
    [scanner.Err()]. *)
Inductive EnvFile :=
| OpenError (err : string)
| OpenFile (lines : list (list ascii)) (scanErr : option string).

(** How [loadEnvFile] ends: it returns an error or nil, or it panics. *)
Inductive LoadResult :=
| LoadReturns (err : option string)
| LoadPanics.

(** The loop over the lines: the [os.Setenv] calls made, in order, and
    whether a line panicked. *)
Fixpoint loadLines (lines : list (list ascii))
  : list (list ascii * list ascii) * bool :=
  match lines with
  | [] => ([], false)
  | text :: lines =>
      match envLine text with
      | LinePanic => ([], true)
      | LineSkip => loadLines lines
      | LineSetenv key value =>
          let '(calls, panicked) := loadLines lines in
          ((key, value) :: calls, panicked)
      end
  end.

(** The calls of [os.Setenv(key, value)] that [loadEnvFile] makes, in
    order, and how it ends. *)
Definition loadEnvFile (f : EnvFile)
  : list (list ascii * list ascii) * LoadResult :=
  match f with
  | OpenError err => ([], LoadReturns (Some err))
  | OpenFile lines scanErr =>
      let '(calls, panicked) := loadLines lines in
      (calls, if panicked then LoadPanics else LoadReturns scanErr)
  end.

(** ** Example worlds: a small static site and sample responses *)

Definition okAudit : LighthouseResult :=
  {| lh_Score := 1%float; lh_Title := "Accessibility"; lh_Audits := ∅ |}.

Fixpoint siteLinks (site : list (string * list string)) (u : string)
  : option (list string) :=
  match site with
  | [] => None
  | (p, ls) :: rest => if String.eqb p u then Some ls else siteLinks rest u
  end.

(** Every page of [site] serves its anchors; every audit succeeds with no
    findings; the context is done in the iterations [done] selects. *)
Definition siteWorld (site : list (string * list string)) (done : nat -> bool)
  : World :=
  {| ctxDone := done;
     lighthouseGet := fun _ _ _ => GetResp 200 "" (DecodeOk okAudit);
     pageAnchors := fun _ u => siteLinks site u;
     rangeOrder := fun _ l => l;
     timeNow := 0 |}.

Definition pageA : string := "https://example.com/".
Definition pageB : string := "https://example.com/b".
Definition pageC : string := "https://example.com/c".
Definition pageD : string := "https://example.com/d".

(** The home page [pageA] links to [pageB] and [pageC]; [pageB] to
    [pageD] and back home; [pageD] to [pageC]; [pageC] has no link. *)
Definition site1 : list (string * list string) :=
  [(pageA, [pageB; pageC]); (pageB, [pageD; pageA]); (pageC, []);
   (pageD, [pageC])].

(** A world whose audit service cannot be reached. *)
Definition downWorld : World :=
  {| ctxDone := fun _ => false;
     lighthouseGet := fun _ _ _ => GetErr "dial tcp: i/o timeout";
     pageAnchors := fun _ _ => None;
     rangeOrder := fun _ l => l;
     timeNow := 0 |}.

Definition mkAudit (mode : string) (score : float) (items : list AuditItem)
  : Audit :=
  {| audit_ID := ""; audit_Title := "t"; audit_Description := "d";
     audit_Score := score; audit_ScoreDisplayMode := mode;
     audit_DetailsType := "table"; audit_Items := items |}.

Definition mkItem (impact selector snippet : string) : AuditItem :=
  {| item_NodeType := "node"; item_Selector := selector;
     item_Snippet := snippet; item_Impact := impact;
     item_Description := "" |}.

(** A response with a failing audit with two nodes, a failing audit with
    none, a passing audit and a non-binary one. *)
Definition sampleAudits : LighthouseResult :=
  {| lh_Score := 0.5%float; lh_Title := "Accessibility";
     lh_Audits :=
       <["image-alt" := mkAudit "binary" 0%float
                          [mkItem "critical" "img.a" "<img>";
                           mkItem "critical" "img.b" "<img>"]]>
       (<["html-has-lang" := mkAudit "binary" 0%float []]>
       (<["document-title" := mkAudit "binary" 1%float []]>
       (<["focus-traps" := mkAudit "manual" 0%float []]> ∅))) |}.

(** The audit service answers with [sampleAudits]; [range] enumerates
    the map backwards. *)
Definition sampleWorld : World :=
  {| ctxDone := fun _ => false;
     lighthouseGet := fun _ _ _ => GetResp 200 "" (DecodeOk sampleAudits);
     pageAnchors := fun _ _ => None;
     rangeOrder := fun _ l => reverse l;
     timeNow := 0 |}.

(** A 64-bit host with the API key in [GOOGLE_API_KEY], on which every
    URL parses. *)
Definition sampleHost : Host :=
  {| getenv := fun name =>
       if String.eqb name "GOOGLE_API_KEY" then "secret" else "";
     urlParses := fun _ => true;
     wordSize := Bits64 |}.

(** ** Definitions the properties are stated with *)

(** The three ways an invocation fails: the transport returned an error,
    the status is not 200, or the body of a 200 response does not decode. *)
Definition invocationFailed (reply : GetReply) : bool :=
  match reply with
  | GetErr _ => true
  | GetResp code _ dec =>
      negb (code =? http_StatusOK)%Z
      || match dec with DecodeErr _ => true | DecodeOk _ => false end
  end.

(** The issues the specification asks of one audit entry. *)
Definition specIssues (entry : string * Audit) : list AccessibilityIssue :=
  let '(id, a) := entry in
  if auditFails a then
    match audit_Items a with
    | [] => [unknownIssue id a]
    | items => map (itemIssue id a) items
    end
  else [].

(** The status classifier as the specification words it: a function of
    whether the run was cancelled and of the page outcomes. *)
Definition classify (cancelled : bool) (prs : list PageResult) : string :=
  if cancelled then "cancelled"
  else match prs with
       | [] => "failed"
       | _ :: _ =>
           if existsb (fun p => negb (String.eqb (Error p) "")) prs
           then "partial" else "completed"
       end.

(** How a call of [followLinks] may change the frontier: [added] is what
    it appended to the queue. *)
Definition frontierStep (s : AccessibilityScanner) (q : list string)
    (s' : AccessibilityScanner) (q' added : list string) : Prop :=
  q' = q ++ added
  ∧ NoDup added
  ∧ (forall x, x ∈ added -> isVisited (visited s) x = false)
  ∧ (forall x, isVisited (visited s') x = true
               <-> isVisited (visited s) x = true ∨ x ∈ added)
  ∧ (forall x, x ∈ added -> x ∈ urlsDiscovered s')
  ∧ urlsDiscovered s `prefix_of` urlsDiscovered s'
  ∧ (NoDup (urlsDiscovered s) -> NoDup (urlsDiscovered s'))
  ∧ (apiKey s', baseURL s', maxPages s', offset s', limit s')
    = (apiKey s, baseURL s, maxPages s, offset s, limit s).

(** Iterations the loop can still make: discovery-only ones until the
    rank reaches the offset, then audited ones until the limit. *)
Definition crawlMeasure (c : Crawl) : nat :=
  Z.to_nat (offset (scanner c) - urlIndex c)
  + Z.to_nat (limit (scanner c) - lenZ (pageResults c)).

(** What the record of the iterations says about the loop variables,
    for a run of scanner [s0] that is about to start iteration [n]. *)
Definition traceInv (w : World) (s0 : AccessibilityScanner) (n : nat)
    (c : Crawl) : Prop :=
  n = length (iterations c)
  ∧ urlIndex c = Z.of_nat (length (iterations c))
  ∧ (apiKey (scanner c), baseURL (scanner c), maxPages (scanner c),
     offset (scanner c), limit (scanner c))
    = (apiKey s0, baseURL s0, maxPages s0, offset s0, limit s0)
  ∧ (forall i it, iterations c !! i = Some it ->
       it_rank it = Z.of_nat i
       ∧ it_cancelled it = ctxDone w i
       ∧ it_audited it = negb (it_rank it <? offset s0)%Z
       ∧ (it_audited it = false ->
          it_extracted it = (Z.of_nat (it_queued it) <? maxPages s0)%Z))
  ∧ URL <$> pageResults c
    = it_url <$> filter (fun it => it_audited it = true) (iterations c)
  ∧ (lenZ (pageResults c) <= Z.max 0 (limit s0))%Z
  ∧ status c = (if existsb it_cancelled (iterations c)
                then "cancelled" else "completed").

(** The frontier of a run that started from a fresh scanner: the URLs
    dequeued so far followed by the queue are pairwise distinct and are
    exactly the visited ones; the discovery record has no duplicate and
    holds every visited URL. *)
Definition frontierInv (c : Crawl) : Prop :=
  NoDup ((it_url <$> iterations c) ++ queue c)
  ∧ (forall x, isVisited (visited (scanner c)) x = true
               <-> x ∈ (it_url <$> iterations c) ++ queue c)
  ∧ NoDup (urlsDiscovered (scanner c))
  ∧ (forall x, isVisited (visited (scanner c)) x = true
               -> x ∈ urlsDiscovered (scanner c)).

(** As long as the discovery record holds at most [maxP + 1] URLs, it
    is the dequeued URLs followed by the queue. *)
Definition orderInv (maxP : Z) (c : Crawl) : Prop :=
  (lenZ (urlsDiscovered (scanner c)) <= maxP + 1)%Z ->
  urlsDiscovered (scanner c) = (it_url <$> iterations c) ++ queue c.

(** The same world with another cancellation behaviour. *)
Definition withCtxDone (w : World) (done : nat -> bool) : World :=
  {| ctxDone := done; lighthouseGet := lighthouseGet w;
     pageAnchors := pageAnchors w; rangeOrder := rangeOrder w;
     timeNow := timeNow w |}.

(** A POST request whose body is a JSON object. *)
Definition postScan (u : option string) (maxP off lim : option Z) : Request :=
  {| Method := "POST";
     Body := Some {| json_url := u; json_max_pages := maxP;
                     json_offset := off; json_limit := lim |} |}.

(** Page result [k] of a run is the outcome of the iteration of rank
    [offset + k]; that iteration extracted links exactly when the
    outcome has no error and the queue had room. *)
Definition resultInv (w : World) (s0 : AccessibilityScanner) (c : Crawl)
  : Prop :=
  length (pageResults c) = length (iterations c) - Z.to_nat (offset s0)
  ∧ forall i it, iterations c !! i = Some it -> it_audited it = true ->
      pageResults c !! (i - Z.to_nat (offset s0))
      = Some (scanPageWithLighthouse w i s0 (it_url it))
      ∧ it_extracted it
        = String.eqb (Error (scanPageWithLighthouse w i s0 (it_url it))) ""
          && (Z.of_nat (it_queued it) <? maxPages s0)%Z.

(** The queue stays within [maxPages], and had room after every
    dequeue. *)
Definition queueInv (maxP : Z) (c : Crawl) : Prop :=
  maxPages (scanner c) = maxP
  ∧ (lenZ (queue c) <= maxP)%Z
  ∧ forall it, it ∈ iterations c -> (Z.of_nat (it_queued it) < maxP)%Z.

(** The discovery record holds the seed and the anchors of the pages
    whose links were extracted, and nothing else. *)
Definition discoveryInv (w : World) (base : string) (c : Crawl) : Prop :=
  forall x, x ∈ urlsDiscovered (scanner c)
    <-> x = base
        ∨ exists i it anchors,
            iterations c !! i = Some it ∧ it_extracted it = true
            ∧ pageAnchors w i (it_url it) = Some anchors ∧ x ∈ anchors.



(** The same scanner, and the same loop state, with another limit. *)
Definition withLimit (s : AccessibilityScanner) (lim : Z)
  : AccessibilityScanner :=
  {| apiKey := apiKey s; baseURL := baseURL s; maxPages := maxPages s;
     offset := offset s; limit := lim; visited := visited s;
     urlsDiscovered := urlsDiscovered s |}.

Definition crawlWithLimit (c : Crawl) (lim : Z) : Crawl :=
  {| scanner := withLimit (scanner c) lim; queue := queue c;
     urlIndex := urlIndex c; pageResults := pageResults c;
     status := status c; iterations := iterations c |}.

(** A list without its repetitions: every element once, at the place of
    its first occurrence. *)
Fixpoint dedup (l : list string) : list string :=
  match l with
  | [] => []
  | x :: l => x :: filter (fun y => y ≠ x) (dedup l)
  end.

(** The bytes of a string literal. *)
Definition bytes (s : string) : list ascii := String.list_ascii_of_string s.



(** [l] starts, respectively ends, with a white space code point. *)
Definition leadingSpace (l : list ascii) : bool :=
  match stripRune spaceRunes l with Some _ => true | None => false end.

Definition trailingSpace (l : list ascii) : bool :=
  match stripRune (reverse <$> spaceRunes) (reverse l) with
  | Some _ => true
  | None => false
  end.

(** A line that is not a comment and whose value, what follows its
    first [=], is a single quote character once trimmed. *)
Definition loneQuote (text : list ascii) : Prop :=
  exists p0 p1 q,
    TrimSpace text = p0 ++ eqSign :: p1 /\ (eqSign ∉ p0) /\
    head (TrimSpace text) <> Some hashSign /\
    (q = dquote \/ q = squote) /\ TrimSpace p1 = [q].

(** The [os.Setenv] call of a line that makes one. *)
Definition lineCall (text : list ascii) : option (list ascii * list ascii) :=
  match envLine text with
  | LineSetenv key value => Some (key, value)
  | _ => None
  end.

(** * Audit invoker *)

Section AuditInvoker.

Implicit Types (w : World) (s : AccessibilityScanner) (a : Audit).

Lemma append_nonempty (p e : string) : p ≠ "" -> p +:+ e ≠ "".
Proof. destruct p; [congruence | discriminate]. Qed.

Lemma fold_items_app {A B} (f : A -> B) (l : list A) (acc : list B) :
  fold_left (fun acc x => acc ++ [f x]) l acc = acc ++ (f <$> l).
Proof.
  revert acc; induction l as [|x l IH]; intros acc; simpl.
  - by rewrite app_nil_r.
  - by rewrite IH, <- app_assoc.
Qed.

Lemma filter_all {A} (P : A -> Prop) `{!forall x, Decision (P x)} (l : list A) :
  Forall P l -> filter P l = l.
Proof.
  induction 1 as [|x l Hx _ IH]; [done|].
  by rewrite filter_cons_True, IH.
Qed.

Lemma filter_none {A} (P : A -> Prop) `{!forall x, Decision (P x)} (l : list A) :
  Forall (fun x => ¬ P x) l -> filter P l = [].
Proof.
  induction 1 as [|x l Hx _ IH]; [done|].
  by rewrite filter_cons_False.
Qed.

Lemma auditsBody_app issues entry :
  auditsBody issues entry = issues ++ specIssues entry.
Proof.
  destruct entry as [id a]; unfold auditsBody, specIssues.
  destruct (auditFails a); [|by rewrite app_nil_r].
  rewrite fold_items_app.
  destruct (audit_Items a); simpl; [by rewrite app_nil_r | done].
Qed.

Lemma fold_auditsBody entries issues :
  fold_left auditsBody entries issues = issues ++ flat_map specIssues entries.
Proof.
  revert issues; induction entries as [|e l IH]; intros issues; simpl.
  - by rewrite app_nil_r.
  - by rewrite IH, auditsBody_app, <- app_assoc.
Qed.

Lemma specIssues_id id a i : i ∈ specIssues (id, a) -> AuditID i = id.
Proof.
  unfold specIssues. destruct (auditFails a); [|by intros ?%elem_of_nil].
  destruct (audit_Items a) as [|x l].
  - by intros ->%list_elem_of_singleton.
  - intros (y & -> & _)%list_elem_of_fmap. done.
Qed.

Lemma filter_specIssues_same id a :
  filter (fun i => AuditID i = id) (specIssues (id, a)) = specIssues (id, a).
Proof.
  apply filter_all, Forall_forall.
  intros i Hi. by apply (specIssues_id id a).
Qed.

Lemma filter_specIssues_other id k a :
  k ≠ id -> filter (fun i => AuditID i = id) (specIssues (k, a)) = [].
Proof.
  intros Hne. apply filter_none, Forall_forall.
  intros i Hi%specIssues_id. congruence.
Qed.

Lemma filter_flat_map_absent id (entries : list (string * Audit)) :
  id ∉ entries.*1 ->
  filter (fun i => AuditID i = id) (flat_map specIssues entries) = [].
Proof.
  induction entries as [|[k a] l IH]; cbn [flat_map]; [done|].
  intros [Hne Hnot]%not_elem_of_cons. rewrite filter_app.
  rewrite filter_specIssues_other, IH; done.
Qed.

Lemma filter_flat_map_entry id a (entries : list (string * Audit)) :
  NoDup entries.*1 -> (id, a) ∈ entries ->
  filter (fun i => AuditID i = id) (flat_map specIssues entries)
  = specIssues (id, a).
Proof.
  induction entries as [|[k b] l IH]; cbn [flat_map].
  - by intros _ ?%elem_of_nil.
  - intros [Hk Hl]%NoDup_cons Hin. rewrite filter_app.
    apply elem_of_cons in Hin as [Heq | Hin].
    + inversion Heq; subst k b.
      by rewrite filter_specIssues_same, filter_flat_map_absent, app_nil_r.
    + assert (k ≠ id).
      { intros ->. apply Hk. apply list_elem_of_fmap. by exists (id, a). }
      by rewrite filter_specIssues_other, IH.
Qed.

(** C8. An audit invocation that fails (transport error, status other
    than 200, or a body that does not decode) returns a page result for
    that URL with a non-empty error string, the zero score and no issues.
    The function is total: nothing is raised past it. *)
Theorem scanPage_failure_outcome w n s pageURL :
  invocationFailed (lighthouseGet w n pageURL (apiKey s)) = true ->
  URL (scanPageWithLighthouse w n s pageURL) = pageURL
  ∧ Error (scanPageWithLighthouse w n s pageURL) ≠ ""
  ∧ AccessibilityScore (scanPageWithLighthouse w n s pageURL) = 0%float
  ∧ Issues (scanPageWithLighthouse w n s pageURL) = [].
Proof.
  unfold scanPageWithLighthouse, invocationFailed.
  destruct (lighthouseGet w n pageURL (apiKey s)) as [err | code body dec].
  - intros _. repeat split; simpl. by apply append_nonempty.
  - destruct (code =? http_StatusOK)%Z; simpl.
    + destruct dec as [err | lr]; [|discriminate].
      intros _. repeat split; simpl. by apply append_nonempty.
    + intros _. repeat split; simpl. discriminate.
Qed.

(** Every outcome names the page it is about. *)
Lemma scanPage_URL w n s pageURL :
  URL (scanPageWithLighthouse w n s pageURL) = pageURL.
Proof.
  unfold scanPageWithLighthouse.
  destruct (lighthouseGet w n pageURL (apiKey s)) as [err | code body dec];
    [done|].
  destruct (negb (code =? http_StatusOK)%Z); [done|]. by destruct dec.
Qed.


(** C7. On a successful response (status 200, body decoded to [lr]), for
    every entry [id -> a] of the audits map the issues of the result that
    carry [id] are: one per item of [a], in item order, when [a] is binary
    with a score below 1.0 and has items; the single "unknown" issue with
    empty selector and snippet when it is binary, below 1.0 and has no
    item; none when it passes or is not binary.  Every issue of the result
    belongs to an entry of the map.  The order in which [range] visits the
    map may be any enumeration of its entries. *)
Theorem scanPage_success_issues w n s pageURL body lr :
  lighthouseGet w n pageURL (apiKey s) = GetResp http_StatusOK body (DecodeOk lr) ->
  rangeOrder w n (map_to_list (lh_Audits lr)) ≡ₚ map_to_list (lh_Audits lr) ->
  (forall id a, lh_Audits lr !! id = Some a ->
     filter (fun i => AuditID i = id) (Issues (scanPageWithLighthouse w n s pageURL))
     = if String.eqb (audit_ScoreDisplayMode a) "binary"
          && PrimFloat.ltb (audit_Score a) 1%float
       then match audit_Items a with
            | [] => [{| AuditID := id; Title := audit_Title a;
                        Description := audit_Description a;
                        Impact := "unknown"; Selector := ""; Snippet := "" |}]
            | items => map (itemIssue id a) items
            end
       else [])
  ∧ (forall i, i ∈ Issues (scanPageWithLighthouse w n s pageURL) ->
       is_Some (lh_Audits lr !! AuditID i)).
Proof.
  intros Hget Hperm. unfold scanPageWithLighthouse. rewrite Hget.
  cbn [negb Z.eqb http_StatusOK Pos.eqb Issues]. rewrite fold_auditsBody.
  cbn [app].
  set (entries := rangeOrder w n (map_to_list (lh_Audits lr))) in *.
  assert (Hnd : NoDup entries.*1).
  { rewrite Hperm. apply NoDup_fst_map_to_list. }
  split.
  - intros id a Hlook.
    rewrite (filter_flat_map_entry id a); [done | done |].
    rewrite Hperm. by apply elem_of_map_to_list.
  - intros i Hi. apply list_elem_of_In, in_flat_map in Hi as ([k a] & Hin & Hi).
    apply list_elem_of_In in Hin, Hi.
    rewrite (specIssues_id k a i Hi).
    exists a. apply elem_of_map_to_list. by rewrite Hperm in Hin.
Qed.

Lemma scanPage_failure_outcome_witness :
  let s := NewAccessibilityScanner "key" pageA 50 0 5 in
  invocationFailed (lighthouseGet downWorld 0 pageA (apiKey s)) = true
  ∧ URL (scanPageWithLighthouse downWorld 0 s pageA) = pageA
  ∧ Error (scanPageWithLighthouse downWorld 0 s pageA) ≠ ""
  ∧ AccessibilityScore (scanPageWithLighthouse downWorld 0 s pageA) = 0%float
  ∧ Issues (scanPageWithLighthouse downWorld 0 s pageA) = [].
Proof.
  intros s. split; [reflexivity|].
  apply (scanPage_failure_outcome downWorld 0 s pageA). reflexivity.
Defined.

Lemma scanPage_success_issues_witness :
  let s := NewAccessibilityScanner "key" pageA 50 0 5 in
  let r := scanPageWithLighthouse sampleWorld 0 s pageA in
  lighthouseGet sampleWorld 0 pageA (apiKey s)
    = GetResp http_StatusOK "" (DecodeOk sampleAudits)
  ∧ rangeOrder sampleWorld 0 (map_to_list (lh_Audits sampleAudits))
      ≡ₚ map_to_list (lh_Audits sampleAudits)
  ∧ filter (fun i => AuditID i = "image-alt") (Issues r)
    = [itemIssue "image-alt" (mkAudit "binary" 0%float [])
                 (mkItem "critical" "img.a" "<img>");
       itemIssue "image-alt" (mkAudit "binary" 0%float [])
                 (mkItem "critical" "img.b" "<img>")]
  ∧ filter (fun i => AuditID i = "html-has-lang") (Issues r)
    = [unknownIssue "html-has-lang" (mkAudit "binary" 0%float [])]
  ∧ filter (fun i => AuditID i = "document-title") (Issues r) = []
  ∧ filter (fun i => AuditID i = "focus-traps") (Issues r) = [].
Proof.
  intros s r.
  assert (Hget : lighthouseGet sampleWorld 0 pageA (apiKey s)
                 = GetResp http_StatusOK "" (DecodeOk sampleAudits))
    by reflexivity.
  assert (Hperm : rangeOrder sampleWorld 0 (map_to_list (lh_Audits sampleAudits))
                  ≡ₚ map_to_list (lh_Audits sampleAudits))
    by apply reverse_Permutation.
  destruct (scanPage_success_issues sampleWorld 0 s pageA "" sampleAudits
              Hget Hperm) as [H _].
  split_and!; [done | done | ..].
  - exact (H "image-alt" _ eq_refl).
  - exact (H "html-has-lang" _ eq_refl).
  - exact (H "document-title" _ eq_refl).
  - exact (H "focus-traps" _ eq_refl).
Defined.

End AuditInvoker.

(** * Frontier: link extraction and enqueueing *)

Section Frontier.

Implicit Types (w : World) (s : AccessibilityScanner) (vis : gmap string bool)
  (q links anchors disc : list string) (x link : string).

Lemma containsURL_true l x : containsURL l x = true <-> x ∈ l.
Proof.
  unfold containsURL. rewrite existsb_exists. split.
  - intros (y & Hy%list_elem_of_In & ->%String.eqb_eq). done.
  - intros Hx. exists x. split; [by apply list_elem_of_In | apply String.eqb_refl].
Qed.

Lemma containsURL_false l x : containsURL l x = false <-> x ∉ l.
Proof.
  rewrite <- containsURL_true. by destruct (containsURL l x).
Qed.

Lemma isVisited_insert vis link x :
  isVisited (<[link := true]> vis) x = true
  <-> x = link ∨ isVisited vis x = true.
Proof.
  unfold isVisited. destruct (decide (link = x)) as [-> | Hne].
  - rewrite lookup_insert_eq. simpl. split; [by left | done].
  - rewrite lookup_insert_ne by done.
    split; [by right | by intros [-> | ?]].
Qed.

Lemma isVisited_empty x : isVisited ∅ x = false.
Proof. unfold isVisited. by rewrite lookup_empty. Qed.

(** The tree walk: the links it returns are distinct, and the discovery
    record grows by exactly the returned links it did not hold yet. *)
Lemma findLinks_fold D anchors links disc :
  NoDup links ->
  disc = D ++ filter (fun x => x ∉ D) links ->
  exists links' disc',
    fold_left findLinksVisit anchors (links, disc) = (links', disc')
    ∧ NoDup links'
    ∧ disc' = D ++ filter (fun x => x ∉ D) links'
    ∧ (forall x, x ∈ links' <-> x ∈ links ∨ x ∈ anchors).
Proof.
  revert links disc. induction anchors as [|f anchors IH]; intros links disc Hnd Hd.
  - exists links, disc. simpl. repeat split; try done.
    + by left.
    + intros [?|?%elem_of_nil]; done.
  - cbn [fold_left]. unfold findLinksVisit at 2.
    destruct (containsURL links f) eqn:Hdup; cbn [negb].
    + apply containsURL_true in Hdup.
      destruct (IH links disc Hnd Hd) as (l' & d' & Hf & Hnd' & Hd' & Hin).
      exists l', d'. repeat split; try done.
      * intros Hx. apply Hin in Hx. rewrite elem_of_cons. tauto.
      * rewrite elem_of_cons. intros [Hx | [-> | Hx]]; apply Hin; auto.
    + apply containsURL_false in Hdup.
      assert (Hnd1 : NoDup (links ++ [f])).
      { apply NoDup_app. repeat split; [done | | apply NoDup_singleton].
        intros y Hy ->%list_elem_of_singleton. done. }
      destruct (containsURL disc f) eqn:Hdisc; cbn [negb].
      * apply containsURL_true in Hdisc.
        assert (HfD : f ∈ D).
        { rewrite Hd in Hdisc. apply elem_of_app in Hdisc as [?|Hf]; [done|].
          apply list_elem_of_filter in Hf as [_ Hf]. done. }
        destruct (IH (links ++ [f]) disc Hnd1) as (l' & d' & Hf & Hnd' & Hd' & Hin).
        { rewrite filter_app, filter_cons_False, filter_nil, app_nil_r; [done|].
          intros Hn. by apply Hn. }
        exists l', d'. repeat split; try done.
        -- intros Hx. apply Hin in Hx. rewrite elem_of_app, list_elem_of_singleton in Hx.
           rewrite elem_of_cons. tauto.
        -- rewrite elem_of_cons. intros Hx. apply Hin.
           rewrite elem_of_app, list_elem_of_singleton. tauto.
      * apply containsURL_false in Hdisc.
        assert (HfD : f ∉ D).
        { intros HfD. apply Hdisc. rewrite Hd. apply elem_of_app. by left. }
        destruct (IH (links ++ [f]) (disc ++ [f]) Hnd1) as (l' & d' & Hf & Hnd' & Hd' & Hin).
        { rewrite filter_app, filter_cons_True, filter_nil by done.
          by rewrite Hd, <- app_assoc. }
        exists l', d'. repeat split; try done.
        -- intros Hx. apply Hin in Hx. rewrite elem_of_app, list_elem_of_singleton in Hx.
           rewrite elem_of_cons. tauto.
        -- rewrite elem_of_cons. intros Hx. apply Hin.
           rewrite elem_of_app, list_elem_of_singleton. tauto.
Qed.

(** [extractLinks] changes nothing but the discovery record, which it
    extends by the new links among those it returns. *)
Lemma extractLinks_spec w n s pageURL s' r :
  extractLinks w n s pageURL = (s', r) ->
  match r with
  | None => s' = s
  | Some links =>
      s' = withDiscovered s
             (urlsDiscovered s ++ filter (fun x => x ∉ urlsDiscovered s) links)
      ∧ NoDup links
      ∧ exists anchors, pageAnchors w n pageURL = Some anchors
                        ∧ forall x, x ∈ links <-> x ∈ anchors
  end.
Proof.
  unfold extractLinks. destruct (pageAnchors w n pageURL) as [anchors|].
  - destruct (findLinks_fold (urlsDiscovered s) anchors [] (urlsDiscovered s))
      as (l' & d' & Hf & Hnd & Hd & Hin).
    { apply NoDup_nil_2. } { by rewrite filter_nil, app_nil_r. }
    rewrite Hf. intros [= <- <-]. rewrite Hd. repeat split; [done|].
    exists anchors. split; [done|]. intros x. rewrite Hin.
    rewrite elem_of_nil. tauto.
  - by intros [= <- <-].
Qed.

(** The enqueue loop appends distinct, so far unvisited links to the
    queue and marks exactly those visited. *)
Lemma enqueue_fold maxP links vis q :
  exists vis' added,
    fold_left (enqueueLink maxP) links (vis, q) = (vis', q ++ added)
    ∧ NoDup added
    ∧ (forall x, x ∈ added -> isVisited vis x = false ∧ x ∈ links)
    ∧ (forall x, isVisited vis' x = true
                 <-> isVisited vis x = true ∨ x ∈ added).
Proof.
  revert vis q. induction links as [|link links IH]; intros vis q.
  - exists vis, []. simpl. rewrite app_nil_r. split_and!.
    + done.
    + apply NoDup_nil_2.
    + by intros x ?%elem_of_nil.
    + intros x. rewrite elem_of_nil. tauto.
  - cbn [fold_left]. unfold enqueueLink at 2.
    destruct (negb (isVisited vis link) && (Z.of_nat (length q) <? maxP)%Z)
      eqn:Hguard.
    + apply andb_true_iff in Hguard as [Hvis%negb_true_iff _].
      destruct (IH (<[link := true]> vis) (q ++ [link]))
        as (vis' & added & Hf & Hnd & Hadd & Hv).
      assert (Hlink : isVisited (<[link := true]> vis) link = true)
        by (apply isVisited_insert; by left).
      exists vis', (link :: added). rewrite Hf, <- app_assoc. split_and!.
      * done.
      * apply NoDup_cons. split; [|done].
        intros Hin. apply Hadd in Hin as [Hin _]. congruence.
      * intros x [-> | Hx]%elem_of_cons.
        -- split; [done | by left].
        -- apply Hadd in Hx as [Hx Hl]. split; [|by right].
           destruct (isVisited vis x) eqn:E; [|done].
           assert (isVisited (<[link := true]> vis) x = true)
             by (apply isVisited_insert; by right).
           congruence.
      * intros x. rewrite Hv, isVisited_insert, elem_of_cons. tauto.
    + destruct (IH vis q) as (vis' & added & Hf & Hnd & Hadd & Hv).
      exists vis', added. split_and!; try done.
      intros x Hx. apply Hadd in Hx as [? ?]. split; [done | by right].
Qed.

Lemma filter_ext_in {A} (P Q : A -> Prop) `{!forall a, Decision (P a)}
    `{!forall a, Decision (Q a)} (l : list A) :
  (forall a, a ∈ l -> (P a <-> Q a)) -> filter P l = filter Q l.
Proof.
  induction l as [|a l IH]; intros Hext; [done|].
  assert (Ha : P a <-> Q a) by (apply Hext; by left).
  rewrite !filter_cons, IH.
  - destruct (decide (P a)) as [Hp|Hp], (decide (Q a)) as [Hq|Hq]; tauto.
  - intros b Hb. apply Hext. by right.
Qed.

(** With room in the queue for all of them, every unvisited link is
    appended. *)
Lemma enqueue_fold_room maxP links vis q :
  NoDup links ->
  (lenZ q + lenZ (filter (fun x => isVisited vis x = false) links) <= maxP)%Z ->
  exists vis',
    fold_left (enqueueLink maxP) links (vis, q)
    = (vis', q ++ filter (fun x => isVisited vis x = false) links).
Proof.
  revert vis q.
  induction links as [|link links IH]; intros vis q Hnd Hroom.
  - exists vis. simpl. by rewrite app_nil_r.
  - apply NoDup_cons in Hnd as [Hlink Hnd].
    cbn [fold_left]. unfold enqueueLink at 2.
    rewrite filter_cons in Hroom |- *.
    destruct (isVisited vis link) eqn:Hv; cbn [negb andb].
    + rewrite decide_False in Hroom |- * by done. by apply IH.
    + rewrite decide_True in Hroom |- * by done.
      unfold lenZ in Hroom. cbn [length] in Hroom.
      assert (Hsame : filter (fun x => isVisited (<[link := true]> vis) x = false)
                             links
                      = filter (fun x => isVisited vis x = false) links).
      { apply filter_ext_in. intros x Hx.
        assert (x ≠ link) by (intros ->; done).
        pose proof (isVisited_insert vis link x) as Hi.
        destruct (isVisited (<[link := true]> vis) x), (isVisited vis x);
          intuition congruence. }
      assert (Hlen : (Z.of_nat (length q) <? maxP)%Z = true)
        by (apply Z.ltb_lt; lia).
      rewrite Hlen.
      destruct (IH (<[link := true]> vis) (q ++ [link])) as [vis' Hf];
        [done | |].
      * rewrite Hsame. unfold lenZ. rewrite length_app. cbn [length]. lia.
      * exists vis'. by rewrite Hf, Hsame, <- app_assoc.
Qed.

(** What [followLinks] leaves behind, whatever the page answered. *)
Lemma followLinks_spec w n s q currentURL s' q' :
  followLinks w n s q currentURL = (s', q') ->
  exists added, frontierStep s q s' q' added.
Proof.
  unfold followLinks, frontierStep.
  destruct (extractLinks w n s currentURL) as [s1 r] eqn:Hex.
  apply extractLinks_spec in Hex. destruct r as [links|].
  - destruct Hex as (-> & Hndl & _).
    destruct (enqueue_fold (maxPages s) links (visited s) q)
      as (vis' & added & Hf & Hnd & Hadd & Hv).
    cbn [withDiscovered maxPages visited]. rewrite Hf. intros [= <- <-].
    exists added. cbn. split_and!; try done.
    + intros x Hx. by apply Hadd.
    + intros x Hx. apply Hadd in Hx as [_ Hx]. apply elem_of_app.
      destruct (decide (x ∈ urlsDiscovered s)) as [Hd | Hd]; [by left|].
      right. by apply list_elem_of_filter.
    + by apply prefix_app_r.
    + intros HndD. apply NoDup_app. split_and!; [done | |].
      * intros x Hx [Hn _]%list_elem_of_filter. done.
      * by apply NoDup_filter.
  - subst s1. intros [= <- <-]. exists []. rewrite app_nil_r.
    split_and!; try done.
    + apply NoDup_nil_2.
    + by intros x ?%elem_of_nil.
    + intros x. rewrite elem_of_nil. tauto.
    + by intros x ?%elem_of_nil.
Qed.

Lemma frontierStep_refl s q : frontierStep s q s q [].
Proof.
  unfold frontierStep. rewrite app_nil_r. split_and!; try done.
  - apply NoDup_nil_2.
  - by intros x ?%elem_of_nil.
  - intros x. rewrite elem_of_nil. tauto.
  - by intros x ?%elem_of_nil.
Qed.

(** When the visited URLs are exactly the discovered ones and the queue
    has room for every new link of the page, [followLinks] appends the
    same links to the queue and to the discovery record. *)
Lemma followLinks_room w n s q currentURL s' q' :
  followLinks w n s q currentURL = (s', q') ->
  (forall x, isVisited (visited s) x = true <-> x ∈ urlsDiscovered s) ->
  (lenZ q + lenZ (urlsDiscovered s') - lenZ (urlsDiscovered s)
   <= maxPages s)%Z ->
  exists added,
    q' = q ++ added ∧ urlsDiscovered s' = urlsDiscovered s ++ added.
Proof.
  unfold followLinks. intros Hf HvD.
  destruct (extractLinks w n s currentURL) as [s1 r] eqn:Hex.
  apply extractLinks_spec in Hex. destruct r as [links|].
  - destruct Hex as (-> & Hndl & _).
    assert (Hsame : filter (fun x => x ∉ urlsDiscovered s) links
                    = filter (fun x => isVisited (visited s) x = false) links).
    { apply list_filter_iff. intros x. rewrite <- HvD.
      by destruct (isVisited (visited s) x). }
    cbn [withDiscovered maxPages visited] in Hf.
    destruct (fold_left (enqueueLink (maxPages s)) links (visited s, q))
      as [vis q1] eqn:Hfold.
    injection Hf as <- <-. cbn. rewrite Hsame. intros Hroom.
    unfold lenZ in Hroom. rewrite length_app in Hroom.
    destruct (enqueue_fold_room (maxPages s) links (visited s) q Hndl)
      as [vis' Hf']; [unfold lenZ; lia|].
    rewrite Hf' in Hfold. injection Hfold as <- <-.
    by eexists.
  - subst s1. injection Hf as <- <-. intros _. exists [].
    by rewrite !app_nil_r.
Qed.

End Frontier.

(** * The crawl loop *)

Section Orchestrator.

Implicit Types (w : World) (s : AccessibilityScanner) (c : Crawl)
  (q : list string) (u x : string).

(** One iteration, branch by branch: the dequeued URL is audited exactly
    when its rank has reached the offset; links are extracted when the
    queue left after the dequeue is shorter than [maxPages] and, for an
    audited page, the audit reported no error. *)
Lemma iteration_spec w n c u q :
  queue c = u :: q ->
  exists (audited extracted : bool) (added : list string),
    audited = negb (urlIndex c <? offset (scanner c))%Z
    ∧ extracted
      = (if audited
         then String.eqb (Error (scanPageWithLighthouse w n (scanner c) u)) ""
         else true)
        && (lenZ q <? maxPages (scanner c))%Z
    ∧ urlIndex (iteration w n c) = (urlIndex c + 1)%Z
    ∧ pageResults (iteration w n c)
      = pageResults c
        ++ (if audited then [scanPageWithLighthouse w n (scanner c) u] else [])
    ∧ status (iteration w n c)
      = (if ctxDone w n then "cancelled" else status c)
    ∧ iterations (iteration w n c)
      = iterations c
        ++ [{| it_cancelled := ctxDone w n; it_url := u;
               it_rank := urlIndex c;
               it_discovered := length (urlsDiscovered (scanner c));
               it_queued := length q;
               it_audited := audited; it_extracted := extracted |}]
    ∧ frontierStep (scanner c) q
        (scanner (iteration w n c)) (queue (iteration w n c)) added
    ∧ (extracted = false -> added = [] ∧ scanner (iteration w n c) = scanner c)
    ∧ (extracted = true ->
       followLinks w n (scanner c) q u
       = (scanner (iteration w n c), queue (iteration w n c))).
Proof.
  intros Hq. unfold iteration. rewrite Hq.
  destruct (urlIndex c <? offset (scanner c))%Z eqn:Hrank.
  - destruct (lenZ q <? maxPages (scanner c))%Z eqn:Hguard.
    + destruct (followLinks w n (scanner c) q u) as [s' q'] eqn:Hf.
      destruct (followLinks_spec _ _ _ _ _ _ _ Hf) as (added & Hstep).
      exists false, true, added. cbn. rewrite app_nil_r. by split_and!.
    + exists false, false, []. cbn. rewrite app_nil_r.
      split_and!; try done. apply frontierStep_refl.
  - destruct (String.eqb (Error (scanPageWithLighthouse w n (scanner c) u)) ""
              && (lenZ q <? maxPages (scanner c))%Z) eqn:Hguard.
    + destruct (followLinks w n (scanner c) q u) as [s' q'] eqn:Hf.
      destruct (followLinks_spec _ _ _ _ _ _ _ Hf) as (added & Hstep).
      exists true, true, added. cbn. by split_and!.
    + exists true, false, []. cbn.
      split_and!; try done. apply frontierStep_refl.
Qed.

Lemma loopCond_queue c :
  loopCond c = true ->
  (exists u q, queue c = u :: q)
  ∧ (lenZ (pageResults c) < limit (scanner c))%Z.
Proof.
  unfold loopCond, lenZ. intros [Hq Hl]%andb_true_iff.
  apply Z.ltb_lt in Hq, Hl. split; [|done].
  destruct (queue c) as [|u q]; [simpl in Hq; lia | eauto].
Qed.

(** Invariants of the loop carry over to the state it is left in. *)
Lemma crawlLoop_invariant (P : nat -> Crawl -> Prop) w :
  (forall n c, loopCond c = true -> P n c -> P (S n) (iteration w n c)) ->
  forall fuel n c, P n c -> exists m, P m (crawlLoop w fuel n c).
Proof.
  intros Hstep. induction fuel as [|fuel IH]; intros n c HP; simpl.
  - eauto.
  - destruct (loopCond c) eqn:Hc; [|eauto].
    apply IH. by apply Hstep.
Qed.

(** Every iteration uses up one unit of [crawlMeasure]. *)
Lemma iteration_measure w n c :
  loopCond c = true -> crawlMeasure (iteration w n c) < crawlMeasure c.
Proof.
  intros [(u & q & Hq) Hlim]%loopCond_queue.
  destruct (iteration_spec w n c u q Hq)
    as (audited & extracted & added & Ha & _ & Hidx & Hres & _ & _ & Hstep & _).
  destruct Hstep as (_ & _ & _ & _ & _ & _ & _ & Hcfg).
  injection Hcfg as _ _ _ Hoff Hlimit.
  unfold crawlMeasure. rewrite Hidx, Hres, Hoff, Hlimit.
  unfold lenZ in *. rewrite length_app.
  destruct audited; symmetry in Ha.
  - apply negb_true_iff, Z.ltb_ge in Ha. simpl. lia.
  - apply negb_false_iff, Z.ltb_lt in Ha. simpl. lia.
Qed.

Lemma measure_zero_exit c : crawlMeasure c = 0 -> loopCond c = false.
Proof.
  unfold crawlMeasure, loopCond. intros H.
  apply andb_false_iff. right. apply Z.ltb_ge. lia.
Qed.

(** The loop is left because its condition fails, never for want of
    fuel. *)
Lemma crawlLoop_exits w fuel n c :
  crawlMeasure c <= fuel -> loopCond (crawlLoop w fuel n c) = false.
Proof.
  revert n c. induction fuel as [|fuel IH]; intros n c Hm; simpl.
  - apply measure_zero_exit. lia.
  - destruct (loopCond c) eqn:Hc; [|done].
    apply IH. pose proof (iteration_measure w n c Hc). lia.
Qed.

(** More fuel than [crawlMeasure] changes nothing. *)
Lemma crawlLoop_fuel w fuel k n c :
  crawlMeasure c <= fuel -> crawlLoop w (fuel + k) n c = crawlLoop w fuel n c.
Proof.
  revert n c. induction fuel as [|fuel IH]; intros n c Hm.
  - assert (Hc : loopCond c = false) by (apply measure_zero_exit; lia).
    destruct k; simpl; [done | by rewrite Hc].
  - simpl. destruct (loopCond c) eqn:Hc; [|done].
    apply IH. pose proof (iteration_measure w n c Hc). lia.
Qed.

Lemma crawl_exits w s : loopCond (crawl w s) = false.
Proof.
  apply crawlLoop_exits. unfold crawlMeasure, crawlFuel, crawlInit; cbn.
  unfold lenZ; simpl. lia.
Qed.

Lemma traceInv_init w s : traceInv w s 0 (crawlInit s).
Proof.
  unfold traceInv, crawlInit; cbn. split_and!; try done.
  unfold lenZ; simpl. lia.
Qed.

Lemma traceInv_step w s0 n c :
  loopCond c = true -> traceInv w s0 n c -> traceInv w s0 (S n) (iteration w n c).
Proof.
  intros [(u & q & Hq) Hlim]%loopCond_queue
         (Hn & Hidx & Hcfg & Hits & Hurls & Hlen & Hst).
  destruct (iteration_spec w n c u q Hq)
    as (audited & extracted & added & Ha & He & Hidx' & Hres & Hst' & Hits'
        & Hstep & _).
  destruct Hstep as (_ & _ & _ & _ & _ & _ & _ & Hcfg').
  assert (Hc0 := Hcfg). injection Hc0 as _ _ HmaxP Hoff Hlimit.
  unfold traceInv. rewrite Hidx', Hres, Hst', Hits', Hcfg'.
  rewrite length_app, filter_app, !fmap_app, existsb_app. cbn [length].
  split_and!.
  - lia.
  - lia.
  - done.
  - intros i it [[_ Hi] | [-> <-]]%lookup_snoc_Some; [by apply Hits|].
    cbn. rewrite <- Hn, <- Hoff, <- HmaxP. split_and!; try done; [lia|].
    intros ->. by rewrite He.
  - rewrite Hurls. f_equal. rewrite filter_cons, filter_nil.
    destruct audited; case_decide; try done. cbn. by rewrite scanPage_URL.
  - unfold lenZ in *. rewrite length_app.
    destruct audited; simpl; lia.
  - cbn. rewrite orb_false_r, Hst.
    destruct (existsb it_cancelled (iterations c)), (ctxDone w n); done.
Qed.

(** The trace invariant holds when the loop is left. *)
Lemma crawl_traceInv w s : exists n, traceInv w s n (crawl w s).
Proof.
  unfold crawl. apply crawlLoop_invariant; [|apply traceInv_init].
  intros n c. apply traceInv_step.
Qed.

Lemma frontierInv_init key base maxP off lim :
  frontierInv (crawlInit (NewAccessibilityScanner key base maxP off lim)).
Proof.
  unfold frontierInv, crawlInit; cbn. split_and!.
  - apply NoDup_singleton.
  - intros x. rewrite isVisited_insert, list_elem_of_singleton, isVisited_empty.
    intuition congruence.
  - apply NoDup_singleton.
  - intros x. rewrite isVisited_insert, list_elem_of_singleton, isVisited_empty.
    intuition congruence.
Qed.

Lemma frontierInv_step w n c :
  loopCond c = true -> frontierInv c -> frontierInv (iteration w n c).
Proof.
  intros [(u & q & Hq) _]%loopCond_queue (Hnd & Hvis & HndD & HvD).
  destruct (iteration_spec w n c u q Hq)
    as (audited & extracted & added & _ & _ & _ & _ & _ & Hits' & Hstep & _).
  destruct Hstep as (Hq' & Hnda & Hnew & Hv' & Hd' & Hpre & HndD' & _).
  unfold frontierInv. rewrite Hits', Hq', fmap_app. cbn [fmap list_fmap it_url].
  rewrite Hq in Hnd, Hvis.
  replace (((it_url <$> iterations c) ++ [u]) ++ q ++ added)
    with (((it_url <$> iterations c) ++ u :: q) ++ added)
    by (by rewrite <- !app_assoc).
  split_and!.
  - apply NoDup_app. split_and!; [done | | done].
    intros x Hx Hxa. apply Hvis in Hx. apply Hnew in Hxa. congruence.
  - intros x. rewrite Hv', Hvis, !elem_of_app. tauto.
  - by apply HndD'.
  - intros x [Hx | Hx]%Hv'.
    + eapply elem_of_prefix; [|done]. by apply HvD.
    + by apply Hd'.
Qed.

(** The frontier invariant holds when the loop of a fresh scanner is
    left. *)
Lemma crawl_frontierInv w key base maxP off lim :
  frontierInv (crawl w (NewAccessibilityScanner key base maxP off lim)).
Proof.
  unfold crawl.
  destruct (crawlLoop_invariant (fun _ c => frontierInv c) w) with
    (fuel := crawlFuel (NewAccessibilityScanner key base maxP off lim))
    (n := 0)
    (c := crawlInit (NewAccessibilityScanner key base maxP off lim))
    as [_ H]; [|apply frontierInv_init|done].
  intros n c. apply frontierInv_step.
Qed.

(** [urls_visited] lists the URLs of [page_results], in order. *)
Lemma UrlsVisited_eq w s :
  UrlsVisited (crawlAndScan w s) = URL <$> PageResults (crawlAndScan w s).
Proof. unfold crawlAndScan; cbn. by rewrite fold_items_app. Qed.

(** The page results are those of the audited iterations, in order. *)
Lemma UrlsVisited_trace w s :
  UrlsVisited (crawlAndScan w s)
  = it_url <$> filter (fun it => it_audited it = true) (crawlTrace w s).
Proof.
  rewrite UrlsVisited_eq. unfold crawlAndScan, crawlTrace; cbn.
  destruct (crawl_traceInv w s) as (n & H). apply H.
Qed.

Lemma orderInv_step w n c maxP :
  loopCond c = true ->
  frontierInv c ∧ orderInv maxP c ∧ maxPages (scanner c) = maxP ->
  orderInv maxP (iteration w n c) ∧ maxPages (scanner (iteration w n c)) = maxP.
Proof.
  intros [(u & q & Hq) _]%loopCond_queue
         ((Hnd & Hvis & _ & _) & Hord & HmaxP).
  destruct (iteration_spec w n c u q Hq)
    as (audited & extracted & added & _ & _ & _ & _ & _ & Hits' & Hstep
        & Hskip & Hfollow).
  destruct Hstep as (Hq' & _ & _ & _ & _ & Hpre & _ & Hcfg).
  injection Hcfg as _ _ HmaxP' _ _.
  split; [|congruence].
  unfold orderInv. rewrite Hits', fmap_app. cbn [fmap list_fmap it_url].
  intros Hbound.
  assert (HD : urlsDiscovered (scanner c) = (it_url <$> iterations c) ++ u :: q).
  { rewrite <- Hq. apply Hord. apply prefix_length in Hpre.
    unfold lenZ in *. lia. }
  destruct extracted.
  - destruct (followLinks_room w n (scanner c) q u _ _ (Hfollow eq_refl))
      as (added' & Hqa & HDa).
    + intros x. by rewrite Hvis, Hq, HD.
    + rewrite HD. unfold lenZ in *.
      rewrite length_app. cbn [length]. lia.
    + by rewrite Hqa, HDa, HD, <- !app_assoc.
  - destruct (Hskip eq_refl) as [-> ->].
    by rewrite Hq', app_nil_r, HD, <- app_assoc.
Qed.

(** The discovery record of a fresh run is the dequeued URLs followed by
    the queue, unless it has grown beyond [maxP + 1] entries. *)
Lemma crawl_orderInv w key base maxP off lim :
  orderInv maxP (crawl w (NewAccessibilityScanner key base maxP off lim)).
Proof.
  unfold crawl.
  destruct (crawlLoop_invariant
              (fun _ c => frontierInv c ∧ orderInv maxP c
                          ∧ maxPages (scanner c) = maxP) w) with
    (fuel := crawlFuel (NewAccessibilityScanner key base maxP off lim))
    (n := 0)
    (c := crawlInit (NewAccessibilityScanner key base maxP off lim))
    as [_ H].
  - intros n c Hc (Hf & Ho). split; [by apply frontierInv_step|].
    by apply orderInv_step.
  - split; [apply frontierInv_init|]. by unfold orderInv; cbn.
  - apply H.
Qed.

Lemma sublist_same_length {A} (l1 l2 : list A) :
  l1 `sublist_of` l2 -> length l1 = length l2 -> l1 = l2.
Proof.
  induction 1 as [|a l1 l2 Hsub IH|a l1 l2 Hsub IH]; simpl; intros Hlen.
  - done.
  - f_equal. apply IH. lia.
  - apply sublist_length in Hsub. lia.
Qed.

End Orchestrator.

(** * Properties of a run *)

Section Run.

Implicit Types (w : World) (s : AccessibilityScanner) (c : Crawl).

(** [urls_discovered] never lists a URL twice. *)
Lemma UrlsDiscovered_NoDup w key base maxP off lim :
  NoDup (UrlsDiscovered
           (crawlAndScan w (NewAccessibilityScanner key base maxP off lim))).
Proof.
  unfold crawlAndScan; cbn.
  by destruct (crawl_frontierInv w key base maxP off lim) as (_ & _ & H & _).
Qed.

(** C1, at the scenario of the specification: the home page links to
    [pageB] and [pageC], [pageB] links to [pageD]; with [max_pages = 3],
    [offset = 0], [limit = 2] the discovery record holds four URLs, one
    more than [max_pages]: [extractLinks] records [pageD] while [pageB]
    is processed, without consulting [maxPages]. *)
Theorem discovered_exceeds_max_pages :
  let r := crawlAndScan (siteWorld site1 (fun _ => false))
                        (NewAccessibilityScanner "key" pageA 3 0 2) in
  UrlsDiscovered r = [pageA; pageB; pageC; pageD]
  ∧ UrlsVisited r = [pageA; pageB]
  ∧ (cfg_MaxPages (ScanConfig_ r) < lenZ (UrlsDiscovered r))%Z.
Proof. vm_compute. split_and!; reflexivity. Qed.

(** Cancellation changes nothing but the status: the trace of a run
    differs from that of the same run never cancelled only in the
    [it_cancelled] marks. *)
Lemma crawlLoop_ignores_cancellation w done fuel n c c' :
  scanner c = scanner c' -> queue c = queue c' -> urlIndex c = urlIndex c' ->
  pageResults c = pageResults c' ->
  let d := crawlLoop (withCtxDone w done) fuel n c in
  let d' := crawlLoop w fuel n c' in
  scanner d = scanner d' ∧ queue d = queue d' ∧ urlIndex d = urlIndex d'
  ∧ pageResults d = pageResults d'.
Proof.
  revert n c c'. induction fuel as [|fuel IH]; intros n c c' Hs Hq Hi Hp; simpl.
  - done.
  - unfold loopCond. rewrite Hs, Hq, Hp.
    destruct ((0 <? lenZ (queue c'))%Z
              && (lenZ (pageResults c') <? limit (scanner c'))%Z); [|done].
    apply IH; unfold iteration; rewrite Hs, Hq, Hi, Hp;
      change (scanPageWithLighthouse (withCtxDone w done))
        with (scanPageWithLighthouse w);
      change (followLinks (withCtxDone w done)) with (followLinks w);
      destruct (queue c') as [|u q] eqn:Hq'; try congruence;
      destruct (urlIndex c' <? offset (scanner c'))%Z;
      repeat match goal with
             | |- context [if ?b then _ else _] => destruct b
             | |- context [followLinks ?w ?n ?s ?q ?u] =>
                 destruct (followLinks w n s q u)
             end; done.
Qed.

Lemma PageResults_ignore_cancellation w done s :
  PageResults (crawlAndScan (withCtxDone w done) s)
  = PageResults (crawlAndScan w s).
Proof.
  unfold crawlAndScan, crawl; cbn.
  by apply (crawlLoop_ignores_cancellation w done).
Qed.

(** The [it_cancelled] mark of an iteration is what the context
    answered when that iteration polled it. *)
Lemma crawlTrace_cancelled w s i it :
  crawlTrace w s !! i = Some it -> it_cancelled it = ctxDone w i.
Proof.
  intros Hi. destruct (crawl_traceInv w s) as (n & H).
  destruct H as (_ & _ & _ & Hits & _). by apply Hits.
Qed.

(** C2, at a run whose context is done from the first iteration on: the
    [break] of the [ctx.Done()] case leaves the [select], not the [for],
    so every iteration goes on to dequeue and audit its URL. *)
Theorem cancelled_run_keeps_auditing :
  let w := siteWorld site1 (fun _ => true) in
  let s := NewAccessibilityScanner "key" pageA 50 0 5 in
  it_cancelled <$> crawlTrace w s = [true; true; true; true]
  ∧ it_audited <$> crawlTrace w s = [true; true; true; true]
  ∧ UrlsVisited (crawlAndScan w s) = [pageA; pageB; pageC; pageD]
  ∧ Status (crawlAndScan w s) = "cancelled".
Proof. vm_compute. split_and!; reflexivity. Qed.

Lemma pageD_pageC : pageD ≠ pageC.
Proof. intros E%String.eqb_eq. vm_compute in E. discriminate. Qed.

(** C3, at a run with [max_pages = 1], [offset = 0], [limit = 4]: the
    queue refuses [pageC] when the home page is processed, while
    [extractLinks] has already recorded it as discovered; [pageC] is
    enqueued only when it is found again on [pageD].  The audited URLs
    are not in discovery order: [urls_visited] is not a subsequence of
    [urls_discovered], which here holds four URLs against a maximum
    of 1. *)
Theorem visited_out_of_discovery_order :
  let r := crawlAndScan (siteWorld site1 (fun _ => false))
                        (NewAccessibilityScanner "key" pageA 1 0 4) in
  UrlsVisited r = [pageA; pageB; pageD; pageC]
  ∧ UrlsDiscovered r = [pageA; pageB; pageC; pageD]
  ∧ ¬ (UrlsVisited r `sublist_of` UrlsDiscovered r)
  ∧ (cfg_MaxPages (ScanConfig_ r) < lenZ (UrlsDiscovered r))%Z.
Proof.
  intros r.
  assert (Hv : UrlsVisited r = [pageA; pageB; pageD; pageC])
    by (vm_compute; reflexivity).
  assert (Hd : UrlsDiscovered r = [pageA; pageB; pageC; pageD])
    by (vm_compute; reflexivity).
  split_and!; [done | done | | by rewrite Hd].
  rewrite Hv, Hd. intros H%sublist_same_length; [|done].
  injection H as H _. by apply pageD_pageC.
Qed.

(** C4, at a run with [max_pages = 1], [offset = 1], [limit = 1]: the
    seed is dequeued at rank 0, below the offset, when one URL has been
    discovered, so that the number of discovered URLs has reached
    [max_pages]; it is not audited, but its links are extracted all the
    same, and the discovery record grows to three URLs. *)
Theorem skipped_page_extracted_at_cap :
  let w := siteWorld site1 (fun _ => false) in
  let s := NewAccessibilityScanner "key" pageA 1 1 1 in
  (exists it,
     crawlTrace w s !! 0 = Some it
     ∧ it_url it = pageA
     ∧ (it_rank it < offset s)%Z
     ∧ it_audited it = false
     ∧ (maxPages s <= Z.of_nat (it_discovered it))%Z
     ∧ it_extracted it = true)
  ∧ UrlsVisited (crawlAndScan w s) = [pageB]
  ∧ UrlsDiscovered (crawlAndScan w s) = [pageA; pageB; pageC; pageD].
Proof.
  intros w s. split_and!.
  - exists {| it_cancelled := false; it_url := pageA; it_rank := 0;
              it_discovered := 1; it_queued := 0;
              it_audited := false; it_extracted := true |}.
    split_and!; [vm_compute; reflexivity | done | done | done | | done].
    vm_compute. discriminate.
  - vm_compute. reflexivity.
  - vm_compute. reflexivity.
Qed.

(** Every audited URL is in the discovery record; and as long as the
    discovery record holds at most [max_pages + 1] URLs, the queue has
    refused no link and the audited URLs are in discovery order:
    [urls_visited] is a subsequence of [urls_discovered]. *)
Theorem visited_in_order_within_bound w key base maxP off lim :
  let r := crawlAndScan w (NewAccessibilityScanner key base maxP off lim) in
  (forall x, x ∈ UrlsVisited r -> x ∈ UrlsDiscovered r)
  ∧ ((lenZ (UrlsDiscovered r) <= maxP + 1)%Z ->
     UrlsVisited r `sublist_of` UrlsDiscovered r).
Proof.
  intros r. subst r.
  set (s := NewAccessibilityScanner key base maxP off lim).
  assert (Hsub : UrlsVisited (crawlAndScan w s)
                 `sublist_of` it_url <$> crawlTrace w s).
  { rewrite UrlsVisited_trace. apply fmap_sublist, sublist_filter. }
  split.
  - intros x Hx. unfold crawlAndScan; cbn.
    destruct (crawl_frontierInv w key base maxP off lim) as (_ & Hvis & _ & HvD).
    apply HvD, Hvis, elem_of_app. left. by eapply elem_of_sublist.
  - intros Hlen. pose proof (crawl_orderInv w key base maxP off lim) as HD.
    unfold crawlAndScan at 2; cbn. unfold crawlAndScan in Hlen; cbn in Hlen.
    fold s in HD. rewrite (HD Hlen). by apply sublist_inserts_r.
Qed.

Lemma visited_in_order_within_bound_witness :
  let r := crawlAndScan (siteWorld site1 (fun _ => false))
                        (NewAccessibilityScanner "key" pageA 3 0 2) in
  (lenZ (UrlsDiscovered r) <= 3 + 1)%Z
  ∧ UrlsVisited r `sublist_of` UrlsDiscovered r.
Proof.
  intros r.
  assert (Hlen : (lenZ (UrlsDiscovered r) <= 3 + 1)%Z)
    by (vm_compute; discriminate).
  split; [done|].
  by apply (visited_in_order_within_bound (siteWorld site1 (fun _ => false))
              "key" pageA 3%Z 0%Z 2%Z).
Defined.

(** The status computation of the code is the classifier of the
    specification. *)
Lemma finalStatus_classify (cancelled : bool) (prs : list PageResult) :
  finalStatus (if cancelled then "cancelled" else "completed") prs
  = classify cancelled prs.
Proof.
  unfold finalStatus, classify, hasErrors, lenZ. destruct cancelled.
  - by rewrite String.eqb_refl.
  - assert (String.eqb "completed" "cancelled" = false) as -> by reflexivity.
    cbn [negb andb]. destruct prs as [|p l]; [done|].
    assert ((Z.of_nat (length (p :: l)) =? 0)%Z = false) as ->
      by (apply Z.eqb_neq; simpl; lia).
    done.
Qed.

(** C5.  The status of the report is the classifier of the
    specification applied to whether some iteration saw the context
    done and to the page results: cancelled first, then failed for no
    page result, then partial for a page result with an error, else
    completed. *)
Theorem status_classification w s :
  let r := crawlAndScan w s in
  let cancelled := existsb it_cancelled (crawlTrace w s) in
  Status r = classify cancelled (PageResults r)
  ∧ (cancelled = true -> Status r = "cancelled")
  ∧ (cancelled = false -> PageResults r = [] -> Status r = "failed")
  ∧ (cancelled = false -> PageResults r ≠ [] ->
     (exists p, p ∈ PageResults r ∧ Error p ≠ "") -> Status r = "partial")
  ∧ (cancelled = false -> PageResults r ≠ [] ->
     (forall p, p ∈ PageResults r -> Error p = "") -> Status r = "completed").
Proof.
  intros r cancelled.
  assert (Hst : Status r = classify cancelled (PageResults r)).
  { subst r cancelled. unfold crawlAndScan, crawlTrace; cbn.
    destruct (crawl_traceInv w s) as (n & H).
    destruct H as (_ & _ & _ & _ & _ & _ & ->).
    apply finalStatus_classify. }
  split_and!; [done | ..]; rewrite Hst; unfold classify.
  - by intros ->.
  - by intros -> ->.
  - intros -> Hne (p & Hp & He). destruct (PageResults r) as [|p0 l]; [done|].
    assert (existsb (fun p => negb (String.eqb (Error p) "")) (p0 :: l) = true)
      as ->; [|done].
    apply existsb_exists. exists p. split; [by apply list_elem_of_In|].
    by apply negb_true_iff, String.eqb_neq.
  - intros -> Hne Hall. destruct (PageResults r) as [|p0 l]; [done|].
    assert (existsb (fun p => negb (String.eqb (Error p) "")) (p0 :: l) = false)
      as ->; [|done].
    apply not_true_is_false. intros (p & Hp%list_elem_of_In & He)%existsb_exists.
    apply negb_true_iff, String.eqb_neq in He. by apply He, Hall.
Qed.

(** C6.  With a non-negative limit, a run produces at most [limit] page
    results; they are the results of the audited iterations, in order;
    the rank of an iteration is its position in processing order, and
    every audited iteration has a rank of at least [offset]. *)
Theorem page_results_window w s :
  (0 <= limit s)%Z ->
  (lenZ (PageResults (crawlAndScan w s)) <= limit s)%Z
  ∧ URL <$> PageResults (crawlAndScan w s)
    = it_url <$> filter (fun it => it_audited it = true) (crawlTrace w s)
  ∧ (forall i it, crawlTrace w s !! i = Some it ->
       it_rank it = Z.of_nat i
       ∧ (it_audited it = true -> (offset s <= it_rank it)%Z)).
Proof.
  intros Hlim. destruct (crawl_traceInv w s) as (n & H).
  destruct H as (_ & _ & _ & Hits & Hurls & Hlen & _).
  split_and!.
  - unfold crawlAndScan; cbn. lia.
  - done.
  - intros i it Hi. destruct (Hits i it Hi) as (Hrank & _ & Haud & _).
    split; [done|]. rewrite Haud. intros H%negb_true_iff%Z.ltb_ge. done.
Qed.

Lemma page_results_window_witness :
  let w := siteWorld site1 (fun _ => false) in
  let s := NewAccessibilityScanner "key" pageA 3 1 1 in
  (0 <= limit s)%Z
  ∧ (lenZ (PageResults (crawlAndScan w s)) <= limit s)%Z
  ∧ URL <$> PageResults (crawlAndScan w s)
    = it_url <$> filter (fun it => it_audited it = true) (crawlTrace w s)
  ∧ (forall i it, crawlTrace w s !! i = Some it ->
       it_rank it = Z.of_nat i
       ∧ (it_audited it = true -> (offset s <= it_rank it)%Z)).
Proof.
  intros w s.
  assert (H0 : (0 <= limit s)%Z) by (vm_compute; discriminate).
  split; [done|]. apply (page_results_window w s H0).
Defined.

(** C10.  No URL is audited twice in a run: the entries of
    [urls_visited], which are the URLs of [page_results], are pairwise
    distinct. *)
Theorem visited_urls_distinct w key base maxP off lim :
  let r := crawlAndScan w (NewAccessibilityScanner key base maxP off lim) in
  UrlsVisited r = URL <$> PageResults r ∧ NoDup (UrlsVisited r).
Proof.
  intros r. subst r. split; [apply UrlsVisited_eq|].
  rewrite UrlsVisited_trace.
  destruct (crawl_frontierInv w key base maxP off lim) as (Hnd & _).
  apply NoDup_app in Hnd as (Hnd & _).
  eapply sublist_NoDup; [exact Hnd|].
  apply fmap_sublist, sublist_filter.
Qed.

End Run.

(** * Request validation *)

Section Validation.

Implicit Types (h : Host) (w : World) (req : ScanRequest).

Lemma validateRanges_max_pages req :
  (exists e, validateRanges req = Some e ∧ err_Error e = "Invalid max_pages")
  <-> (req_MaxPages req < 1 ∨ 1000 < req_MaxPages req)%Z.
Proof.
  unfold validateRanges.
  destruct (req_MaxPages req <? 1)%Z eqn:H1;
    destruct (1000 <? req_MaxPages req)%Z eqn:H2; cbn [orb];
    try (split; [intros _; lia | intros _; eexists; split; reflexivity]).
  apply Z.ltb_ge in H1, H2. split; [|lia].
  intros (e & He & Hn). exfalso.
  destruct ((req_Limit req <? 1)%Z || (100 <? req_Limit req)%Z);
    [|destruct (req_Offset req <? 0)%Z]; simplify_eq; discriminate.
Qed.

Lemma validateRanges_limit req :
  (exists e, validateRanges req = Some e ∧ err_Error e = "Invalid limit")
  <-> (1 <= req_MaxPages req <= 1000)%Z
      ∧ (req_Limit req < 1 ∨ 100 < req_Limit req)%Z.
Proof.
  unfold validateRanges.
  destruct (req_MaxPages req <? 1)%Z eqn:H1;
    destruct (1000 <? req_MaxPages req)%Z eqn:H2; cbn [orb];
    try (split; [intros (e & He & Hn); simplify_eq; discriminate | lia]).
  apply Z.ltb_ge in H1, H2.
  destruct (req_Limit req <? 1)%Z eqn:H3;
    destruct (100 <? req_Limit req)%Z eqn:H4; cbn [orb];
    try (split; [intros _; lia | intros _; eexists; split; reflexivity]).
  apply Z.ltb_ge in H3, H4. split; [|lia].
  intros (e & He & Hn). exfalso.
  destruct (req_Offset req <? 0)%Z; simplify_eq; discriminate.
Qed.

Lemma intFits_small ws n : (-1000 <= n <= 1000)%Z -> intFits ws n = true.
Proof.
  intros H. unfold intFits. apply andb_true_iff.
  destruct ws; cbn; split; [apply Z.leb_le | apply Z.ltb_lt
                           | apply Z.leb_le | apply Z.ltb_lt]; lia.
Qed.

(** What the handler does with a POST request whose body decodes. *)
Lemma handleScan_post h w body req :
  decodeScanRequest (wordSize h) body = Some req ->
  handleScan h w {| Method := "POST"; Body := Some body |}
  = if String.eqb (req_URL req) "" then
      inl (sendError "Missing URL" http_StatusBadRequest "URL is required")
    else if negb (urlParses h (req_URL req)) then
      inl (sendError "Invalid URL" http_StatusBadRequest "URL must be valid")
    else
      match validateRanges (setDefaults req) with
      | Some e => inl e
      | None =>
          if String.eqb (getAPIKey h) "" then
            inl (sendError "Configuration error"
                           http_StatusInternalServerError
                           "Google API key not configured")
          else
            inr (crawlAndScan w
                   (NewAccessibilityScanner (getAPIKey h)
                      (req_URL (setDefaults req))
                      (req_MaxPages (setDefaults req))
                      (req_Offset (setDefaults req))
                      (req_Limit (setDefaults req))))
      end.
Proof.
  intros Hdec. unfold handleScan.
  change (negb (String.eqb (Method {| Method := "POST"; Body := Some body |})
                           "POST")) with false.
  cbn [Body]. by rewrite Hdec.
Qed.

(** The handler answers "Invalid max_pages" exactly when the request
    reaches the range checks with a negative or too large [max_pages]. *)
Lemma handleScan_invalid_max_pages h w body :
  (exists e, handleScan h w {| Method := "POST"; Body := Some body |} = inl e
             ∧ err_Error e = "Invalid max_pages")
  <-> exists req,
        decodeScanRequest (wordSize h) body = Some req
        ∧ req_URL req ≠ "" ∧ urlParses h (req_URL req) = true
        ∧ (req_MaxPages req < 0 ∨ 1000 < req_MaxPages req)%Z.
Proof.
  assert (Hdef : forall req,
    (req_MaxPages (setDefaults req) < 1 ∨ 1000 < req_MaxPages (setDefaults req))%Z
    <-> (req_MaxPages req < 0 ∨ 1000 < req_MaxPages req)%Z).
  { intros req. unfold setDefaults; cbn.
    destruct (req_MaxPages req =? 0)%Z eqn:E;
      [apply Z.eqb_eq in E | apply Z.eqb_neq in E]; lia. }
  destruct (decodeScanRequest (wordSize h) body) as [req|] eqn:Hdec.
  - rewrite (handleScan_post h w body req Hdec).
    destruct (String.eqb (req_URL req) "") eqn:Hu.
    { apply String.eqb_eq in Hu. split.
      - intros (e & [= <-] & He). discriminate.
      - intros (req' & [= <-] & Hne & _). done. }
    apply String.eqb_neq in Hu.
    destruct (urlParses h (req_URL req)) eqn:Hp; cbn [negb].
    2:{ split.
        - intros (e & [= <-] & He). discriminate.
        - intros (req' & [= <-] & _ & Hp' & _). congruence. }
    split.
    + intros (e & He & Hn). exists req. split_and!; try done.
      apply Hdef, validateRanges_max_pages.
      destruct (validateRanges (setDefaults req)) as [e'|].
      * injection He as ->. by exists e.
      * destruct (String.eqb (getAPIKey h) ""); [|discriminate].
        injection He as <-. discriminate.
    + intros (req' & [= <-] & _ & _ & Hbad).
      destruct (proj2 (validateRanges_max_pages (setDefaults req)))
        as (e & -> & Hn); [by apply Hdef|]. by exists e.
  - split.
    + intros (e & He & Hn). unfold handleScan in He. cbn in He.
      rewrite Hdec in He. injection He as <-. discriminate.
    + intros (req & ? & _). discriminate.
Qed.

(** The same for "Invalid limit", which is checked after [max_pages]. *)
Lemma handleScan_invalid_limit h w body :
  (exists e, handleScan h w {| Method := "POST"; Body := Some body |} = inl e
             ∧ err_Error e = "Invalid limit")
  <-> exists req,
        decodeScanRequest (wordSize h) body = Some req
        ∧ req_URL req ≠ "" ∧ urlParses h (req_URL req) = true
        ∧ ¬ (req_MaxPages req < 0 ∨ 1000 < req_MaxPages req)%Z
        ∧ (req_Limit req < 0 ∨ 100 < req_Limit req)%Z.
Proof.
  assert (Hdef : forall req,
    ((1 <= req_MaxPages (setDefaults req) <= 1000)%Z
     ∧ (req_Limit (setDefaults req) < 1 ∨ 100 < req_Limit (setDefaults req))%Z)
    <-> (¬ (req_MaxPages req < 0 ∨ 1000 < req_MaxPages req)%Z
         ∧ (req_Limit req < 0 ∨ 100 < req_Limit req)%Z)).
  { intros req. unfold setDefaults; cbn.
    destruct (req_MaxPages req =? 0)%Z eqn:E;
      [apply Z.eqb_eq in E | apply Z.eqb_neq in E];
      (destruct (req_Limit req =? 0)%Z eqn:E';
        [apply Z.eqb_eq in E' | apply Z.eqb_neq in E']); lia. }
  destruct (decodeScanRequest (wordSize h) body) as [req|] eqn:Hdec.
  - rewrite (handleScan_post h w body req Hdec).
    destruct (String.eqb (req_URL req) "") eqn:Hu.
    { apply String.eqb_eq in Hu. split.
      - intros (e & [= <-] & He). discriminate.
      - intros (req' & [= <-] & Hne & _). done. }
    apply String.eqb_neq in Hu.
    destruct (urlParses h (req_URL req)) eqn:Hp; cbn [negb].
    2:{ split.
        - intros (e & [= <-] & He). discriminate.
        - intros (req' & [= <-] & _ & Hp' & _). congruence. }
    split.
    + intros (e & He & Hn). exists req. split_and!; try done;
        apply Hdef, validateRanges_limit;
        (destruct (validateRanges (setDefaults req)) as [e'|];
          [injection He as ->; by exists e
          |destruct (String.eqb (getAPIKey h) ""); [|discriminate];
           injection He as <-; discriminate]).
    + intros (req' & [= <-] & _ & _ & H1 & H2).
      destruct (proj2 (validateRanges_limit (setDefaults req)))
        as (e & -> & Hn); [by apply Hdef|]. by exists e.
  - split.
    + intros (e & He & Hn). unfold handleScan in He. cbn in He.
      rewrite Hdec in He. injection He as <-. discriminate.
    + intros (req & ? & _). discriminate.
Qed.

(** C9.  A request with [max_pages = 0] (or [limit = 0]) is answered
    exactly as one without the field and as one carrying the default 50
    (or 5): the zero is replaced before the ranges are validated.  The
    handler never answers such a request with "Invalid max_pages" (or
    "Invalid limit"); a scan it starts for it runs with [max_pages = 50]
    (or [limit = 5]); and when the rest of the request is well formed
    (a URL that parses, a non-negative offset, an API key configured) a
    request with both zeros is accepted.  The handler answers "Invalid
    max_pages" exactly when the request reaches the range checks with a
    value sent that is negative or above 1000, and "Invalid limit"
    exactly when, [max_pages] being accepted, the value sent is negative
    or above 100. *)
Theorem handleScan_zero_is_default h w u off :
  (forall lim,
     handleScan h w (postScan u (Some 0%Z) off lim)
     = handleScan h w (postScan u None off lim)
     ∧ handleScan h w (postScan u (Some 0%Z) off lim)
       = handleScan h w (postScan u (Some 50%Z) off lim))
  ∧ (forall maxP,
       handleScan h w (postScan u maxP off (Some 0%Z))
       = handleScan h w (postScan u maxP off None)
       ∧ handleScan h w (postScan u maxP off (Some 0%Z))
         = handleScan h w (postScan u maxP off (Some 5%Z)))
  ∧ (forall lim e,
       handleScan h w (postScan u (Some 0%Z) off lim) = inl e ->
       err_Error e ≠ "Invalid max_pages")
  ∧ (forall maxP e,
       handleScan h w (postScan u maxP off (Some 0%Z)) = inl e ->
       err_Error e ≠ "Invalid limit")
  ∧ (forall lim r,
       handleScan h w (postScan u (Some 0%Z) off lim) = inr r ->
       cfg_MaxPages (ScanConfig_ r) = 50%Z)
  ∧ (forall maxP r,
       handleScan h w (postScan u maxP off (Some 0%Z)) = inr r ->
       cfg_Limit (ScanConfig_ r) = 5%Z)
  ∧ (forall url o,
       u = Some url -> url ≠ "" -> urlParses h url = true ->
       decodeInt (wordSize h) off = Some o -> (0 <= o)%Z ->
       getAPIKey h ≠ "" ->
       exists r,
         handleScan h w (postScan u (Some 0%Z) off (Some 0%Z)) = inr r
         ∧ ScanConfig_ r
           = {| cfg_MaxPages := 50; cfg_Offset := o; cfg_Limit := 5 |})
  ∧ (forall maxP lim,
       (exists e, handleScan h w (postScan u maxP off lim) = inl e
                  ∧ err_Error e = "Invalid max_pages")
       <-> exists req,
             decodeScanRequest (wordSize h)
               {| json_url := u; json_max_pages := maxP;
                  json_offset := off; json_limit := lim |} = Some req
             ∧ req_URL req ≠ "" ∧ urlParses h (req_URL req) = true
             ∧ (req_MaxPages req < 0 ∨ 1000 < req_MaxPages req)%Z)
  ∧ (forall maxP lim,
       (exists e, handleScan h w (postScan u maxP off lim) = inl e
                  ∧ err_Error e = "Invalid limit")
       <-> exists req,
             decodeScanRequest (wordSize h)
               {| json_url := u; json_max_pages := maxP;
                  json_offset := off; json_limit := lim |} = Some req
             ∧ req_URL req ≠ "" ∧ urlParses h (req_URL req) = true
             ∧ ¬ (req_MaxPages req < 0 ∨ 1000 < req_MaxPages req)%Z
             ∧ (req_Limit req < 0 ∨ 100 < req_Limit req)%Z).
Proof.
  assert (Hzero : forall ws, decodeInt ws (Some 0%Z) = Some 0%Z).
  { intros ws. unfold decodeInt. by rewrite intFits_small by lia. }
  assert (H50 : forall ws, decodeInt ws (Some 50%Z) = Some 50%Z).
  { intros ws. unfold decodeInt. by rewrite intFits_small by lia. }
  assert (H5 : forall ws, decodeInt ws (Some 5%Z) = Some 5%Z).
  { intros ws. unfold decodeInt. by rewrite intFits_small by lia. }
  assert (Heq1 : forall lim,
    handleScan h w (postScan u (Some 0%Z) off lim)
    = handleScan h w (postScan u None off lim)
    ∧ handleScan h w (postScan u (Some 0%Z) off lim)
      = handleScan h w (postScan u (Some 50%Z) off lim)).
  { intros lim. unfold handleScan, postScan, decodeScanRequest.
    cbn [Method Body json_url json_max_pages json_offset json_limit].
    rewrite Hzero, H50. cbn [decodeInt].
    destruct (decodeInt (wordSize h) off) as [o|]; [|done].
    destruct (decodeInt (wordSize h) lim) as [l|]; done. }
  assert (Heq2 : forall maxP,
    handleScan h w (postScan u maxP off (Some 0%Z))
    = handleScan h w (postScan u maxP off None)
    ∧ handleScan h w (postScan u maxP off (Some 0%Z))
      = handleScan h w (postScan u maxP off (Some 5%Z))).
  { intros maxP. unfold handleScan, postScan, decodeScanRequest.
    cbn [Method Body json_url json_max_pages json_offset json_limit].
    rewrite Hzero, H5. cbn [decodeInt].
    destruct (decodeInt (wordSize h) maxP) as [m|]; [|done].
    destruct (decodeInt (wordSize h) off) as [o|]; done. }
  split_and!.
  - exact Heq1.
  - exact Heq2.
  - intros lim e He Hn.
    destruct (proj1 (handleScan_invalid_max_pages h w _) (ex_intro _ e (conj He Hn)))
      as (req & Hdec & _ & _ & Hbad).
    unfold decodeScanRequest in Hdec.
    cbn [json_url json_max_pages json_offset json_limit] in Hdec.
    rewrite Hzero in Hdec.
    destruct (decodeInt (wordSize h) off), (decodeInt (wordSize h) lim);
      try discriminate.
    injection Hdec as <-. cbn in Hbad. lia.
  - intros maxP e He Hn.
    destruct (proj1 (handleScan_invalid_limit h w _) (ex_intro _ e (conj He Hn)))
      as (req & Hdec & _ & _ & _ & Hbad).
    unfold decodeScanRequest in Hdec.
    cbn [json_url json_max_pages json_offset json_limit] in Hdec.
    rewrite Hzero in Hdec.
    destruct (decodeInt (wordSize h) maxP), (decodeInt (wordSize h) off);
      try discriminate.
    injection Hdec as <-. cbn in Hbad. lia.
  - intros lim r. unfold postScan.
    destruct (decodeScanRequest (wordSize h)
                {| json_url := u; json_max_pages := Some 0%Z;
                   json_offset := off; json_limit := lim |}) as [req|] eqn:Hdec.
    + rewrite (handleScan_post h w _ req Hdec).
      unfold decodeScanRequest in Hdec.
      cbn [json_url json_max_pages json_offset json_limit] in Hdec.
      rewrite Hzero in Hdec.
      destruct (decodeInt (wordSize h) off), (decodeInt (wordSize h) lim);
        try discriminate.
      injection Hdec as <-.
      repeat match goal with
             | |- context [if ?b then _ else _] => destruct b; try discriminate
             | |- context [match ?m with Some _ => _ | None => _ end] =>
                 destruct m; try discriminate
             end.
      by intros [= <-].
    + unfold handleScan. cbn. by rewrite Hdec.
  - intros maxP r. unfold postScan.
    destruct (decodeScanRequest (wordSize h)
                {| json_url := u; json_max_pages := maxP;
                   json_offset := off; json_limit := Some 0%Z |})
      as [req|] eqn:Hdec.
    + rewrite (handleScan_post h w _ req Hdec).
      unfold decodeScanRequest in Hdec.
      cbn [json_url json_max_pages json_offset json_limit] in Hdec.
      rewrite Hzero in Hdec.
      destruct (decodeInt (wordSize h) maxP), (decodeInt (wordSize h) off);
        try discriminate.
      injection Hdec as <-.
      repeat match goal with
             | |- context [if ?b then _ else _] => destruct b; try discriminate
             | |- context [match ?m with Some _ => _ | None => _ end] =>
                 destruct m; try discriminate
             end.
      by intros [= <-].
    + unfold handleScan. cbn. by rewrite Hdec.
  - intros url o -> Hne Hparse Hoff Ho Hkey. unfold postScan.
    rewrite (handleScan_post h w _
               {| req_URL := url; req_MaxPages := 0; req_Offset := o;
                  req_Limit := 0 |}).
    2:{ unfold decodeScanRequest.
        cbn [json_url json_max_pages json_offset json_limit].
        by rewrite Hzero, Hoff. }
    cbn [req_URL]. apply String.eqb_neq in Hne, Hkey.
    rewrite Hne, Hparse, Hkey. cbn [negb].
    unfold setDefaults, validateRanges; cbn.
    assert ((o <? 0)%Z = false) as -> by (apply Z.ltb_ge; lia).
    by eexists.
  - intros maxP lim. apply handleScan_invalid_max_pages.
  - intros maxP lim. apply handleScan_invalid_limit.
Qed.

(** On [sampleHost] a request with both zeros and nothing else amiss is
    accepted and scanned with the defaults. *)
Lemma handleScan_zero_is_default_witness :
  exists r,
    handleScan sampleHost (siteWorld site1 (fun _ => false))
      (postScan (Some pageA) (Some 0%Z) (Some 0%Z) (Some 0%Z)) = inr r
    ∧ ScanConfig_ r
      = {| cfg_MaxPages := 50; cfg_Offset := 0; cfg_Limit := 5 |}.
Proof.
  destruct (handleScan_zero_is_default sampleHost
              (siteWorld site1 (fun _ => false)) (Some pageA) (Some 0%Z))
    as (_ & _ & _ & _ & _ & _ & H & _).
  apply (H pageA 0%Z); try done.
Defined.

(** Every scan the handler starts runs a fresh scanner whose window
    passed the range checks. *)
Lemma handleScan_runs_validated h w r res :
  handleScan h w r = inr res ->
  exists key base maxP off lim,
    res = crawlAndScan w (NewAccessibilityScanner key base maxP off lim)
    ∧ (1 <= maxP <= 1000)%Z ∧ (0 <= off)%Z ∧ (1 <= lim <= 100)%Z.
Proof.
  unfold handleScan.
  destruct (negb (String.eqb (Method r) "POST")); [discriminate|].
  destruct (Body r) as [body|]; [|discriminate].
  destruct (decodeScanRequest (wordSize h) body) as [req0|]; [|discriminate].
  destruct (String.eqb (req_URL req0) ""); [discriminate|].
  destruct (negb (urlParses h (req_URL req0))); [discriminate|].
  set (req := setDefaults req0).
  destruct (validateRanges req) as [e|] eqn:Hval; [discriminate|].
  destruct (String.eqb (getAPIKey h) ""); [discriminate|].
  intros [= <-].
  exists (getAPIKey h), (req_URL req), (req_MaxPages req), (req_Offset req),
         (req_Limit req).
  split; [done|]. unfold validateRanges in Hval.
  destruct (req_MaxPages req <? 1)%Z eqn:H1; [discriminate|].
  destruct (1000 <? req_MaxPages req)%Z eqn:H2; [discriminate|].
  destruct (req_Limit req <? 1)%Z eqn:H3; [discriminate|].
  destruct (100 <? req_Limit req)%Z eqn:H4; [discriminate|].
  destruct (req_Offset req <? 0)%Z eqn:H5; [discriminate|].
  apply Z.ltb_ge in H1, H2, H3, H4, H5. lia.
Qed.

End Validation.

(** * Further properties of a run *)

Section Bounds.

Implicit Types (w : World) (s : AccessibilityScanner) (c : Crawl).

Lemma crawlInit_measure s : crawlMeasure (crawlInit s) = crawlFuel s.
Proof.
  unfold crawlMeasure, crawlFuel, crawlInit; cbn. unfold lenZ; simpl.
  by rewrite !Z.sub_0_r.
Qed.

(** A run makes at most [offset + limit] iterations, and its loop is
    left only with the queue empty or with [limit] page results. *)
Theorem crawl_bounded_work w s :
  length (crawlTrace w s) <= Z.to_nat (offset s) + Z.to_nat (limit s)
  ∧ (queue (crawl w s) = []
     ∨ (limit s <= lenZ (PageResults (crawlAndScan w s)))%Z).
Proof.
  split.
  - unfold crawlTrace, crawl.
    destruct (crawlLoop_invariant
                (fun _ c => length (iterations c) + crawlMeasure c
                            <= crawlFuel s) w) with
      (fuel := crawlFuel s) (n := 0) (c := crawlInit s) as [_ H].
    + intros n c Hc Hle.
      pose proof (iteration_measure w n c Hc) as Hm.
      destruct (loopCond_queue c Hc) as [(u & q & Hq) _].
      destruct (iteration_spec w n c u q Hq)
        as (a & e & added & _ & _ & _ & _ & _ & -> & _).
      rewrite length_app. cbn [length]. lia.
    + rewrite crawlInit_measure. cbn. lia.
    + assert (crawlFuel s = Z.to_nat (offset s) + Z.to_nat (limit s))
        by reflexivity.
      lia.
  - pose proof (crawl_exits w s) as Hexit.
    destruct (crawl_traceInv w s) as (n & _ & _ & Hcfg & _).
    injection Hcfg as _ _ _ _ Hlim.
    unfold loopCond in Hexit. apply andb_false_iff in Hexit as [Hq | Hl].
    + left. apply Z.ltb_ge in Hq. unfold lenZ in Hq.
      destruct (queue (crawl w s)); [done | simpl in Hq; lia].
    + right. apply Z.ltb_ge in Hl. unfold crawlAndScan; cbn. lia.
Qed.

Lemma enqueue_fold_length maxP links vis q vis' q' :
  fold_left (enqueueLink maxP) links (vis, q) = (vis', q') ->
  (lenZ q <= maxP)%Z -> (lenZ q' <= maxP)%Z.
Proof.
  revert vis q. induction links as [|link links IH]; intros vis q;
    cbn [fold_left].
  - by intros [= <- <-].
  - unfold enqueueLink at 2.
    destruct (negb (isVisited vis link) && (Z.of_nat (length q) <? maxP)%Z)
      eqn:Hguard; intros Hf Hlen; [|by eapply IH].
    apply andb_true_iff in Hguard as [_ Hroom%Z.ltb_lt].
    eapply IH; [done|]. unfold lenZ. rewrite length_app. simpl. lia.
Qed.

Lemma followLinks_length w n s q u s' q' :
  followLinks w n s q u = (s', q') ->
  (lenZ q <= maxPages s)%Z -> (lenZ q' <= maxPages s)%Z.
Proof.
  unfold followLinks.
  destruct (extractLinks w n s u) as [s1 [links|]] eqn:Hex.
  - apply extractLinks_spec in Hex as (-> & _).
    destruct (fold_left (enqueueLink (maxPages (withDiscovered s _))) links
                (visited (withDiscovered s _), q)) as [vis q1] eqn:Hf.
    intros [= <- <-]. by eapply enqueue_fold_length.
  - by intros [= <- <-].
Qed.

Lemma queueInv_step w n c maxP :
  loopCond c = true -> queueInv maxP c -> queueInv maxP (iteration w n c).
Proof.
  intros [(u & q & Hq) _]%loopCond_queue (HmaxP & Hlen & Hits).
  destruct (iteration_spec w n c u q Hq)
    as (audited & extracted & added & _ & _ & _ & _ & _ & Hits' & Hstep
        & Hskip & Hfollow).
  destruct Hstep as (Hq' & _ & _ & _ & _ & _ & _ & Hcfg).
  injection Hcfg as _ _ HmaxP' _ _.
  rewrite Hq in Hlen. unfold lenZ in Hlen. simpl in Hlen.
  unfold queueInv. rewrite Hits'. split_and!.
  - congruence.
  - destruct extracted.
    + pose proof (followLinks_length _ _ _ _ _ _ _ (Hfollow eq_refl)) as H.
      rewrite HmaxP in H. apply H. unfold lenZ. lia.
    + destruct (Hskip eq_refl) as [-> _]. rewrite Hq', app_nil_r.
      unfold lenZ. lia.
  - intros it [Hin | ->%list_elem_of_singleton]%elem_of_app; [by apply Hits|].
    cbn. lia.
Qed.

(** What [max_pages] does bound, from 1 on: the queue never holds more
    than [max_pages] URLs, so after every dequeue it has room, and the
    links of every page dequeued below the offset are extracted. *)
Theorem queue_within_max_pages w s :
  (1 <= maxPages s)%Z ->
  (lenZ (queue (crawl w s)) <= maxPages s)%Z
  ∧ (forall i it, crawlTrace w s !! i = Some it ->
       (Z.of_nat (it_queued it) < maxPages s)%Z
       ∧ (it_audited it = false -> it_extracted it = true)).
Proof.
  intros Hmax. unfold crawlTrace, crawl.
  destruct (crawlLoop_invariant
              (fun n c => queueInv (maxPages s) c ∧ traceInv w s n c) w) with
    (fuel := crawlFuel s) (n := 0) (c := crawlInit s)
    as [n [(_ & Hlen & Hits) (_ & _ & _ & Htr & _)]].
  - intros n c Hc [Hq Ht]. split; [by apply queueInv_step|].
    by apply traceInv_step.
  - split; [|apply traceInv_init]. unfold queueInv, crawlInit, lenZ; cbn.
    split_and!; [done | lia |]. by intros it ?%elem_of_nil.
  - split; [done|]. intros i it Hi.
    assert (Hroom : (Z.of_nat (it_queued it) < maxPages s)%Z).
    { apply Hits. by eapply list_elem_of_lookup_2. }
    split; [done|]. intros Ha.
    destruct (Htr i it Hi) as (_ & _ & _ & Hext).
    rewrite (Hext Ha). by apply Z.ltb_lt.
Qed.

Lemma queue_within_max_pages_witness :
  let w := siteWorld site1 (fun _ => false) in
  let s := NewAccessibilityScanner "key" pageA 1 2 1 in
  (1 <= maxPages s)%Z
  ∧ (lenZ (queue (crawl w s)) <= maxPages s)%Z
  ∧ (forall i it, crawlTrace w s !! i = Some it ->
       (Z.of_nat (it_queued it) < maxPages s)%Z
       ∧ (it_audited it = false -> it_extracted it = true)).
Proof.
  intros w s.
  assert (H1 : (1 <= maxPages s)%Z) by (vm_compute; discriminate).
  split; [done|]. exact (queue_within_max_pages w s H1).
Defined.

End Bounds.

Section Results.

Implicit Types (w : World) (s : AccessibilityScanner) (c : Crawl).

(** An audit reads nothing of the scanner but its API key. *)
Lemma scanPage_apiKey w n s s' u :
  apiKey s = apiKey s' ->
  scanPageWithLighthouse w n s u = scanPageWithLighthouse w n s' u.
Proof. unfold scanPageWithLighthouse. by intros ->. Qed.

Lemma resultInv_init w s : resultInv w s (crawlInit s).
Proof. unfold resultInv, crawlInit; cbn. split; [done|]. by intros i it. Qed.

Lemma resultInv_step w s0 n c :
  loopCond c = true -> traceInv w s0 n c -> resultInv w s0 c ->
  resultInv w s0 (iteration w n c).
Proof.
  intros [(u & q & Hq) _]%loopCond_queue
         (Hn & Hidx & Hcfg & Htr & _) (Hlen & Hres).
  destruct (iteration_spec w n c u q Hq)
    as (audited & extracted & added & Ha & He & _ & Hres' & _ & Hits' & _).
  injection Hcfg as Hkey _ HmaxP Hoff _.
  assert (Hscan : scanPageWithLighthouse w n (scanner c) u
                  = scanPageWithLighthouse w n s0 u)
    by (by apply scanPage_apiKey).
  rewrite Hscan in *. rewrite Hidx, Hoff in Ha. rewrite HmaxP in He.
  unfold resultInv. rewrite Hres', Hits', !length_app. cbn [length].
  destruct audited; symmetry in Ha.
  - apply negb_true_iff, Z.ltb_ge in Ha. split; [simpl; lia|].
    intros i it [[Hi Hlook] | [-> <-]]%lookup_snoc_Some Haud.
    + destruct (Hres i it Hlook Haud) as [Hp Hx]. split; [|done].
      by apply lookup_app_l_Some.
    + cbn. rewrite <- Hn. split; [|by rewrite He].
      replace (n - Z.to_nat (offset s0)) with (length (pageResults c)) by lia.
      by rewrite list_lookup_middle.
  - apply negb_false_iff, Z.ltb_lt in Ha. rewrite app_nil_r.
    split; [simpl; lia|].
    intros i it [[Hi Hlook] | [-> <-]]%lookup_snoc_Some Haud; [by apply Hres|].
    done.
Qed.

Lemma crawl_resultInv w s :
  resultInv w s (crawl w s) ∧ exists n, traceInv w s n (crawl w s).
Proof.
  unfold crawl.
  destruct (crawlLoop_invariant
              (fun n c => resultInv w s c ∧ traceInv w s n c) w) with
    (fuel := crawlFuel s) (n := 0) (c := crawlInit s) as [n [Hr Ht]].
  - intros n c Hc [Hr Ht]. split; [by apply resultInv_step|].
    by apply traceInv_step.
  - split; [apply resultInv_init | apply traceInv_init].
  - split; [done | by exists n].
Qed.

(** Page result [k] of the report is the outcome of auditing the URL
    dequeued at rank [offset + k], and the links of that page were
    extracted exactly when the outcome carries no error and the queue
    had room: a page whose audit failed is never a link source. *)
Theorem page_result_of_rank w s k p :
  PageResults (crawlAndScan w s) !! k = Some p ->
  exists it,
    crawlTrace w s !! (Z.to_nat (offset s) + k) = Some it
    ∧ it_audited it = true
    ∧ p = scanPageWithLighthouse w (Z.to_nat (offset s) + k) s (it_url it)
    ∧ it_extracted it
      = String.eqb (Error p) "" && (Z.of_nat (it_queued it) <? maxPages s)%Z.
Proof.
  unfold crawlAndScan, crawlTrace; cbn. intros Hk.
  destruct (crawl_resultInv w s) as [[Hlen Hres] (n & _ & _ & _ & Htr & _)].
  pose proof (lookup_lt_Some _ _ _ Hk) as Hlt.
  destruct (lookup_lt_is_Some_2 (iterations (crawl w s))
              (Z.to_nat (offset s) + k)) as [it Hit]; [lia|].
  exists it. destruct (Htr _ _ Hit) as (Hrank & _ & Haud & _).
  assert (Ha : it_audited it = true).
  { rewrite Haud. apply negb_true_iff, Z.ltb_ge. lia. }
  destruct (Hres _ _ Hit Ha) as [Hp Hx].
  replace (Z.to_nat (offset s) + k - Z.to_nat (offset s)) with k in Hp by lia.
  assert (p = scanPageWithLighthouse w (Z.to_nat (offset s) + k) s (it_url it))
    by congruence.
  subst p. by split_and!.
Qed.

Lemma page_result_of_rank_witness :
  let w := siteWorld site1 (fun _ => false) in
  let s := NewAccessibilityScanner "key" pageA 3 1 1 in
  let p := scanPageWithLighthouse w 1 s pageB in
  PageResults (crawlAndScan w s) !! 0 = Some p
  ∧ exists it,
      crawlTrace w s !! (Z.to_nat (offset s) + 0) = Some it
      ∧ it_audited it = true
      ∧ p = scanPageWithLighthouse w (Z.to_nat (offset s) + 0) s (it_url it)
      ∧ it_extracted it
        = String.eqb (Error p) "" && (Z.of_nat (it_queued it) <? maxPages s)%Z.
Proof.
  intros w s p.
  assert (H0 : PageResults (crawlAndScan w s) !! 0 = Some p)
    by (vm_compute; reflexivity).
  split; [done|]. exact (page_result_of_rank w s 0 p H0).
Defined.

End Results.

Section Discovery.

Implicit Types (w : World) (s : AccessibilityScanner) (c : Crawl).

Lemma followLinks_discovered w n s q u s' q' :
  followLinks w n s q u = (s', q') ->
  forall x, x ∈ urlsDiscovered s'
    <-> x ∈ urlsDiscovered s
        ∨ exists anchors, pageAnchors w n u = Some anchors ∧ x ∈ anchors.
Proof.
  unfold followLinks.
  destruct (extractLinks w n s u) as [s1 r] eqn:Hex.
  pose proof (extractLinks_spec _ _ _ _ _ _ Hex) as Hspec.
  unfold extractLinks in Hex.
  destruct (pageAnchors w n u) as [anchors|] eqn:Hpage.
  - destruct (fold_left findLinksVisit anchors ([], urlsDiscovered s))
      as [links disc]. injection Hex as <- <-.
    destruct Hspec as (Hs1 & _ & anchors' & [= <-] & Hin).
    destruct (fold_left (enqueueLink (maxPages (withDiscovered s disc))) links
                (visited (withDiscovered s disc), q)) as [vis q1].
    intros [= <- <-] x. cbn. injection Hs1 as ->.
    rewrite elem_of_app, list_elem_of_filter, Hin. split.
    + intros [? | [_ ?]]; [by left | right; by exists anchors].
    + intros [? | (a & [= <-] & ?)]; [by left|].
      destruct (decide (x ∈ urlsDiscovered s)); [by left | by right].
  - injection Hex as <- <-. intros [= <- <-] x. split; [by left|].
    by intros [? | (a & ? & _)].
Qed.

Lemma discoveryInv_step w n c base :
  loopCond c = true -> n = length (iterations c) ->
  discoveryInv w base c -> discoveryInv w base (iteration w n c).
Proof.
  intros [(u & q & Hq) _]%loopCond_queue Hn Hinv.
  destruct (iteration_spec w n c u q Hq)
    as (audited & extracted & added & _ & _ & _ & _ & _ & Hits' & _
        & Hskip & Hfollow).
  unfold discoveryInv. rewrite Hits'. intros x. destruct extracted.
  - rewrite (followLinks_discovered _ _ _ _ _ _ _ (Hfollow eq_refl)), (Hinv x).
    split.
    + intros [[-> | (i & it & a & Hi & He & Ha & Hx)] | (a & Ha & Hx)].
      * by left.
      * right. exists i, it, a. split_and!; try done.
        by apply lookup_app_l_Some.
      * right. exists n. eexists. exists a.
        split; [rewrite Hn; by apply list_lookup_middle|]. by cbn.
    + intros [-> | (i & it & a & [[_ Hi] | [-> <-]]%lookup_snoc_Some
                    & He & Ha & Hx)].
      * left. by left.
      * left. right. by exists i, it, a.
      * right. exists a. by rewrite Hn.
  - destruct (Hskip eq_refl) as [_ ->]. rewrite (Hinv x). split.
    + intros [-> | (i & it & a & Hi & He & Ha & Hx)]; [by left|].
      right. exists i, it, a. split_and!; try done.
      by apply lookup_app_l_Some.
    + intros [-> | (i & it & a & [[_ Hi] | [-> <-]]%lookup_snoc_Some
                    & He & Ha & Hx)]; [by left | | done].
      right. by exists i, it, a.
Qed.

(** The discovery record of a run is exact: a URL is in
    [urls_discovered] if and only if it is the seed or an anchor of a
    page whose links the run extracted.  The run records no URL the site
    did not serve, and leaves out none it was served, whatever
    [max_pages] is. *)
Theorem discovery_record_exact w key base maxP off lim x :
  x ∈ UrlsDiscovered
        (crawlAndScan w (NewAccessibilityScanner key base maxP off lim))
  <-> x = base
      ∨ exists i it anchors,
          crawlTrace w (NewAccessibilityScanner key base maxP off lim) !! i
          = Some it
          ∧ it_extracted it = true
          ∧ pageAnchors w i (it_url it) = Some anchors ∧ x ∈ anchors.
Proof.
  set (s := NewAccessibilityScanner key base maxP off lim).
  unfold crawlAndScan, crawlTrace, crawl; cbn.
  destruct (crawlLoop_invariant
              (fun n c => n = length (iterations c) ∧ discoveryInv w base c)
              w) with
    (fuel := crawlFuel s) (n := 0) (c := crawlInit s) as [n [_ H]].
  - intros n c Hc [Hn Hd]. split; [|by apply discoveryInv_step].
    destruct (loopCond_queue c Hc) as [(u & q & Hq) _].
    destruct (iteration_spec w n c u q Hq)
      as (a & e & added & _ & _ & _ & _ & _ & -> & _).
    rewrite length_app. cbn [length]. lia.
  - split; [done|]. intros y. unfold crawlInit; cbn.
    rewrite list_elem_of_singleton. split; [by left|].
    by intros [-> | (i & it & a & ? & _)].
  - apply H.
Qed.

End Discovery.

Section Report.

Implicit Types (w : World) (s : AccessibilityScanner) (c : Crawl).

Lemma classify_values cancelled (prs : list PageResult) :
  (classify cancelled prs = "cancelled" ∧ cancelled = true)
  ∨ (classify cancelled prs = "failed" ∧ cancelled = false ∧ prs = [])
  ∨ (classify cancelled prs = "partial" ∧ cancelled = false
     ∧ Exists (fun p => Error p ≠ "") prs)
  ∨ (classify cancelled prs = "completed" ∧ cancelled = false ∧ prs ≠ []
     ∧ Forall (fun p => Error p = "") prs).
Proof.
  unfold classify. destruct cancelled; [by left|]. right.
  destruct prs as [|p0 l]; [by left|]. right.
  destruct (existsb (fun p => negb (String.eqb (Error p) "")) (p0 :: l))
    eqn:Hex.
  - left. split_and!; try done.
    apply existsb_exists in Hex as (p & Hp%list_elem_of_In & He).
    apply Exists_exists. exists p. split; [done|].
    by apply negb_true_iff, String.eqb_neq in He.
  - right. split_and!; try done. apply Forall_forall. intros p Hp.
    destruct (String.eqb (Error p) "") eqn:He; [by apply String.eqb_eq|].
    assert (existsb (fun p => negb (String.eqb (Error p) "")) (p0 :: l) = true);
      [|congruence].
    apply existsb_exists. exists p. split; [by apply list_elem_of_In|].
    by rewrite He.
Qed.

(** What a status tells the reader of a report: [failed] means no page
    result at all; [completed] means at least one page result and no
    error on any; [partial] means a page result with an error;
    [cancelled] means that the context was done when some iteration
    polled it.  No other status is ever reported. *)
Theorem status_meaning w s :
  let r := crawlAndScan w s in
  Status r ∈ ["completed"; "partial"; "failed"; "cancelled"]
  ∧ (Status r = "failed" -> PageResults r = [])
  ∧ (Status r = "completed" ->
     PageResults r ≠ [] ∧ Forall (fun p => Error p = "") (PageResults r))
  ∧ (Status r = "partial" -> Exists (fun p => Error p ≠ "") (PageResults r))
  ∧ (Status r = "cancelled"
     <-> exists i, i < length (crawlTrace w s) ∧ ctxDone w i = true).
Proof.
  intros r. subst r. unfold crawlAndScan, crawlTrace; cbn.
  destruct (crawl_traceInv w s) as (n & _ & _ & _ & Htr & _ & _ & ->).
  rewrite finalStatus_classify.
  set (its := iterations (crawl w s)) in *.
  assert (Hc : existsb it_cancelled its = true
               <-> exists i, i < length its ∧ ctxDone w i = true).
  { rewrite existsb_exists. split.
    - intros (it & Hin%list_elem_of_In & Hit).
      apply list_elem_of_lookup in Hin as (i & Hi). exists i.
      split; [by eapply lookup_lt_Some|].
      destruct (Htr i it Hi) as (_ & <- & _). done.
    - intros (i & Hi & Hd).
      destruct (lookup_lt_is_Some_2 its i Hi) as [it Hit]. exists it.
      split; [apply list_elem_of_In; by eapply list_elem_of_lookup_2|].
      destruct (Htr i it Hit) as (_ & -> & _). done. }
  destruct (classify_values (existsb it_cancelled its)
              (pageResults (crawl w s)))
    as [[-> Hb] | [(-> & Hb & Hp) | [(-> & Hb & Hp) | (-> & Hb & Hp)]]].
  - split_and!; try done; [apply list_elem_of_In; simpl; tauto|]. by rewrite <- Hc.
  - split_and!; try done; [apply list_elem_of_In; simpl; tauto|].
    split; [done|]. intros H%Hc. congruence.
  - split_and!; try done; [apply list_elem_of_In; simpl; tauto|].
    split; [done|]. intros H%Hc. congruence.
  - split_and!; try done; [apply list_elem_of_In; simpl; tauto|].
    split; [done|]. intros H%Hc. congruence.
Qed.

(** Cancellation changes nothing in a report but its status: the page
    results, the discovery record and the visited URLs of a run are
    those of the same run with a context that is never done. *)
Theorem report_ignores_cancellation w done s :
  let r := crawlAndScan (withCtxDone w done) s in
  let r' := crawlAndScan (withCtxDone w (fun _ => false)) s in
  PageResults r = PageResults r'
  ∧ UrlsDiscovered r = UrlsDiscovered r'
  ∧ UrlsVisited r = UrlsVisited r'
  ∧ TotalPages r = TotalPages r'.
Proof.
  intros r r'. subst r r'. unfold crawlAndScan, crawl; cbn.
  destruct (crawlLoop_ignores_cancellation w done (crawlFuel s) 0
              (crawlInit s) (crawlInit s)) as (Hs1 & _ & _ & Hp1); try done.
  destruct (crawlLoop_ignores_cancellation w (fun _ => false) (crawlFuel s) 0
              (crawlInit s) (crawlInit s)) as (Hs2 & _ & _ & Hp2); try done.
  cbv zeta in *. rewrite Hs1, Hp1, Hs2, Hp2. done.
Qed.

(** With [offset = 0] and a limit of at least 1 the seed is always
    audited: the first page result is the outcome of the seed, in the
    first iteration, the seed heads the discovery record, and the status
    is never [failed]. *)
Theorem seed_audited_first w key base maxP lim :
  (1 <= lim)%Z ->
  let s := NewAccessibilityScanner key base maxP 0 lim in
  PageResults (crawlAndScan w s) !! 0
  = Some (scanPageWithLighthouse w 0 s base)
  ∧ UrlsDiscovered (crawlAndScan w s) !! 0 = Some base
  ∧ Status (crawlAndScan w s) ≠ "failed".
Proof.
  intros Hlim s.
  assert (Hinv : let c := crawl w s in
            ((iterations c = [] ∧ queue c = [base])
             ∨ exists it, iterations c !! 0 = Some it ∧ it_url it = base)
            ∧ urlsDiscovered (scanner c) !! 0 = Some base).
  { unfold crawl.
    destruct (crawlLoop_invariant
                (fun _ c =>
                   ((iterations c = [] ∧ queue c = [base])
                    ∨ exists it, iterations c !! 0 = Some it ∧ it_url it = base)
                   ∧ urlsDiscovered (scanner c) !! 0 = Some base) w) with
      (fuel := crawlFuel s) (n := 0) (c := crawlInit s) as [_ H]; [| |done].
    - intros n c Hc [Hits Hd].
      destruct (loopCond_queue c Hc) as [(u & q & Hq) _].
      destruct (iteration_spec w n c u q Hq)
        as (a & e & added & _ & _ & _ & _ & _ & Hits' & Hstep & _).
      destruct Hstep as (_ & _ & _ & _ & _ & Hpre & _).
      split; [|by eapply prefix_lookup_Some].
      right. rewrite Hits'. destruct Hits as [[-> Hb] | (it & Hit & Hu)].
      + rewrite Hb in Hq. injection Hq as <- <-. eexists. by split.
      + exists it. split; [by apply lookup_app_l_Some | done].
    - split; [by left | done]. }
  destruct Hinv as [Hits Hd].
  destruct (crawl_resultInv w s) as [[Hlen Hres] (n & Ht)].
  assert (Ht' := Ht).
  destruct Ht' as (_ & _ & Hcfg & Htr & _ & _ & Hst).
  destruct Hits as [[Hnil Hq] | (it & Hit & Hu)].
  { pose proof (crawl_exits w s) as Hexit. exfalso.
    injection Hcfg as _ _ _ _ Hl.
    unfold loopCond, lenZ in Hexit. rewrite Hq, Hl in Hexit.
    rewrite Hnil in Hlen. simpl in Hlen.
    apply length_zero_iff_nil in Hlen. rewrite Hlen in Hexit. cbn in Hexit.
    apply Z.ltb_ge in Hexit. lia. }
  destruct (Htr 0 it Hit) as (Hrank & _ & Haud & _).
  assert (Ha : it_audited it = true) by (rewrite Haud, Hrank; done).
  destruct (Hres 0 it Hit Ha) as [Hp _]. cbn in Hp. rewrite Hu in Hp.
  unfold crawlAndScan; cbn. split_and!; [done | done |].
  rewrite Hst, finalStatus_classify. unfold classify.
  destruct (existsb it_cancelled (iterations (crawl w s))); [done|].
  destruct (pageResults (crawl w s)); [done|].
  by destruct (existsb _ _).
Qed.

Lemma seed_audited_first_witness :
  let w := siteWorld site1 (fun _ => false) in
  let s := NewAccessibilityScanner "key" pageA 50 0 1 in
  (1 <= 1)%Z
  ∧ PageResults (crawlAndScan w s) !! 0
    = Some (scanPageWithLighthouse w 0 s pageA)
  ∧ UrlsDiscovered (crawlAndScan w s) !! 0 = Some pageA
  ∧ Status (crawlAndScan w s) ≠ "failed".
Proof.
  intros w s. assert (H1 : (1 <= 1)%Z) by lia.
  split; [done|]. exact (seed_audited_first w "key" pageA 50%Z 1%Z H1).
Defined.

End Report.

Section Pagination.

Implicit Types (w : World) (s : AccessibilityScanner) (c : Crawl).







End Pagination.

Section Limit.

Implicit Types (w : World) (s : AccessibilityScanner) (c : Crawl).

Lemma followLinks_withLimit w n s q u lim :
  followLinks w n (withLimit s lim) q u
  = (withLimit (followLinks w n s q u).1 lim, (followLinks w n s q u).2).
Proof.
  unfold followLinks, extractLinks. cbn [urlsDiscovered withLimit].
  destruct (pageAnchors w n u) as [anchors|]; [|done].
  destruct (fold_left findLinksVisit anchors ([], urlsDiscovered s))
    as [links disc].
  cbn [withDiscovered maxPages visited withLimit].
  by destruct (fold_left (enqueueLink (maxPages s)) links (visited s, q)).
Qed.

(** An iteration does not read the limit. *)
Lemma iteration_withLimit w n c lim :
  iteration w n (crawlWithLimit c lim) = crawlWithLimit (iteration w n c) lim.
Proof.
  unfold iteration, crawlWithLimit. cbn [queue scanner urlIndex status
    pageResults iterations offset maxPages urlsDiscovered withLimit].
  destruct (queue c) as [|u q] eqn:Hq; [by rewrite Hq|].
  change (scanPageWithLighthouse w n (withLimit (scanner c) lim) u)
    with (scanPageWithLighthouse w n (scanner c) u).
  rewrite !followLinks_withLimit.
  destruct (followLinks w n (scanner c) q u) as [s' q'].
  cbn [fst snd].
  destruct (urlIndex c <? offset (scanner c))%Z;
    repeat match goal with
           | |- context [if ?b then _ else _] => destruct b
           end; done.
Qed.

(** The loop only ever appends to the page results and to the discovery
    record. *)
Lemma crawlLoop_grows w fuel n c :
  pageResults c `prefix_of` pageResults (crawlLoop w fuel n c)
  ∧ urlsDiscovered (scanner c)
      `prefix_of` urlsDiscovered (scanner (crawlLoop w fuel n c)).
Proof.
  revert n c. induction fuel as [|fuel IH]; intros n c; simpl; [done|].
  destruct (loopCond c) eqn:Hc; [|done].
  destruct (loopCond_queue c Hc) as [(u & q & Hq) _].
  destruct (iteration_spec w n c u q Hq)
    as (a & e & added & _ & _ & _ & Hres & _ & _ & Hstep & _).
  destruct Hstep as (_ & _ & _ & _ & _ & Hpre & _).
  destruct (IH (S n) (iteration w n c)) as [Hp Hd]. split.
  - etrans; [|exact Hp]. rewrite Hres. by apply prefix_app_r.
  - by etrans.
Qed.

Lemma crawlLoop_limit_prefix w fuel n c lim :
  (limit (scanner c) <= lim)%Z ->
  pageResults (crawlLoop w fuel n c)
    `prefix_of` pageResults (crawlLoop w fuel n (crawlWithLimit c lim))
  ∧ urlsDiscovered (scanner (crawlLoop w fuel n c))
      `prefix_of`
      urlsDiscovered (scanner (crawlLoop w fuel n (crawlWithLimit c lim))).
Proof.
  revert n c. induction fuel as [|fuel IH]; intros n c Hle; [done|].
  cbn [crawlLoop]. destruct (loopCond c) eqn:Hc.
  - assert (loopCond (crawlWithLimit c lim) = true) as ->.
    { unfold loopCond in *. cbn.
      apply andb_true_iff in Hc as [-> Hl%Z.ltb_lt]. apply Z.ltb_lt. lia. }
    rewrite iteration_withLimit. apply IH.
    destruct (loopCond_queue c Hc) as [(u & q & Hq) _].
    destruct (iteration_spec w n c u q Hq)
      as (a & e & added & _ & _ & _ & _ & _ & _ & Hstep & _).
    destruct Hstep as (_ & _ & _ & _ & _ & _ & _ & Hcfg).
    injection Hcfg as _ _ _ _ ->. done.
  - apply (crawlLoop_grows w (S fuel) n (crawlWithLimit c lim)).
Qed.

(** Raising the limit only extends a report: the page results and the
    discovery record of a run are prefixes of those of the run with the
    same seed, [max_pages] and offset and a larger limit. *)
Theorem larger_limit_extends w key base maxP off lim lim' :
  (lim <= lim')%Z ->
  let r := crawlAndScan w (NewAccessibilityScanner key base maxP off lim) in
  let r' := crawlAndScan w (NewAccessibilityScanner key base maxP off lim') in
  PageResults r `prefix_of` PageResults r'
  ∧ UrlsVisited r `prefix_of` UrlsVisited r'
  ∧ UrlsDiscovered r `prefix_of` UrlsDiscovered r'.
Proof.
  intros Hle r r'. subst r r'. rewrite !UrlsVisited_eq.
  unfold crawlAndScan, crawl; cbn.
  set (s := NewAccessibilityScanner key base maxP off lim).
  set (s' := NewAccessibilityScanner key base maxP off lim').
  assert (Hfuel : exists k, crawlFuel s' = crawlFuel s + k).
  { exists (crawlFuel s' - crawlFuel s). unfold crawlFuel; cbn. lia. }
  destruct Hfuel as [k Hk].
  rewrite <- (crawlLoop_fuel w (crawlFuel s) k 0 (crawlInit s))
    by (by rewrite crawlInit_measure).
  rewrite <- Hk.
  destruct (crawlLoop_limit_prefix w (crawlFuel s') 0 (crawlInit s) lim')
    as [Hp Hd]; [done|].
  change (crawlWithLimit (crawlInit s) lim') with (crawlInit s') in *.
  split_and!; [done | | done].
  destruct Hp as [l ->]. rewrite fmap_app. by apply prefix_app_r.
Qed.

Lemma larger_limit_extends_witness :
  let w := siteWorld site1 (fun _ => false) in
  let r := crawlAndScan w (NewAccessibilityScanner "key" pageA 50 0 2) in
  let r' := crawlAndScan w (NewAccessibilityScanner "key" pageA 50 0 3) in
  (2 <= 3)%Z
  ∧ PageResults r `prefix_of` PageResults r'
  ∧ UrlsVisited r `prefix_of` UrlsVisited r'
  ∧ UrlsDiscovered r `prefix_of` UrlsDiscovered r'.
Proof.
  intros w r r'. assert (H : (2 <= 3)%Z) by lia.
  split; [done|].
  exact (larger_limit_extends w "key" pageA 50%Z 0%Z 2%Z 3%Z H).
Defined.

End Limit.

(** * Further properties of link extraction and of the audit mapping *)

Section Extraction.

Implicit Types (w : World) (s : AccessibilityScanner)
  (links anchors disc : list string).

Lemma filter_not_in_snoc links (f : string) (X : list string) :
  filter (fun x => x ∉ links ++ [f]) X
  = filter (fun x => x ∉ links) (filter (fun x => x ≠ f) X).
Proof.
  rewrite list_filter_filter. apply list_filter_iff. intros x.
  rewrite elem_of_app, list_elem_of_singleton. tauto.
Qed.

Lemma findLinks_fold_exact anchors links disc :
  fold_left findLinksVisit anchors (links, disc)
  = (links ++ filter (fun x => x ∉ links) (dedup anchors),
     disc ++ filter (fun x => x ∉ disc)
               (filter (fun x => x ∉ links) (dedup anchors))).
Proof.
  revert links disc. induction anchors as [|f anchors IH]; intros links disc.
  - cbn. by rewrite !app_nil_r.
  - cbn [fold_left dedup]. unfold findLinksVisit at 2.
    destruct (containsURL links f) eqn:Hdup; cbn [negb].
    + apply containsURL_true in Hdup.
      rewrite IH, (filter_cons_False _ f) by (intros Hn; by apply Hn).
      rewrite (list_filter_filter_l (fun x => x ∉ links) (fun y => y ≠ f));
        [done|]. intros x Hx ->. done.
    + apply containsURL_false in Hdup.
      rewrite (filter_cons_True _ f) by done.
      rewrite <- filter_not_in_snoc.
      destruct (containsURL disc f) eqn:Hdisc; cbn [negb].
      * apply containsURL_true in Hdisc.
        rewrite IH, (filter_cons_False _ f) by (intros Hn; by apply Hn).
        by rewrite <- app_assoc.
      * apply containsURL_false in Hdisc.
        rewrite IH, (filter_cons_True _ f) by done.
        rewrite <- !app_assoc. cbn [app]. do 3 f_equal.
        apply filter_ext_in. intros x [Hx _]%list_elem_of_filter.
        rewrite elem_of_app, list_elem_of_singleton.
        split; [tauto|]. intros Hn [? | ->]; [done|].
        apply Hx, elem_of_app. right. by left.
Qed.

(** [extractLinks] as a function.  When the page cannot be fetched or
    parsed it returns an error and leaves the scanner as it is.
    Otherwise it returns the in-scope links of the page without
    repetition, in the order of their first occurrence, and appends to
    the discovery record those of them it did not hold, in that order;
    nothing else of the scanner changes. *)
Theorem extractLinks_exact w n s pageURL :
  extractLinks w n s pageURL
  = match pageAnchors w n pageURL with
    | None => (s, None)
    | Some anchors =>
        (withDiscovered s
           (urlsDiscovered s
            ++ filter (fun x => x ∉ urlsDiscovered s) (dedup anchors)),
         Some (dedup anchors))
    end.
Proof.
  unfold extractLinks. destruct (pageAnchors w n pageURL) as [anchors|];
    [|done].
  rewrite findLinks_fold_exact. cbn [app].
  rewrite (filter_all (fun x => x ∉ [])); [done|].
  apply Forall_forall. intros x _. apply not_elem_of_nil.
Qed.

Lemma specIssues_nil id a : specIssues (id, a) = [] <-> auditFails a = false.
Proof.
  unfold specIssues. destruct (auditFails a); [|done].
  by destruct (audit_Items a).
Qed.

(** A successful audit yields an empty issue list exactly when no entry
    of the audits map is a binary audit with a score below 1.0. *)
Theorem scanPage_no_issues_iff w n s pageURL body lr :
  lighthouseGet w n pageURL (apiKey s)
  = GetResp http_StatusOK body (DecodeOk lr) ->
  rangeOrder w n (map_to_list (lh_Audits lr)) ≡ₚ map_to_list (lh_Audits lr) ->
  Issues (scanPageWithLighthouse w n s pageURL) = []
  <-> forall id a, lh_Audits lr !! id = Some a ->
        String.eqb (audit_ScoreDisplayMode a) "binary"
        && PrimFloat.ltb (audit_Score a) 1%float = false.
Proof.
  intros Hget Hperm. unfold scanPageWithLighthouse. rewrite Hget.
  cbn [negb Z.eqb http_StatusOK Pos.eqb Issues]. rewrite fold_auditsBody.
  cbn [app].
  set (entries := rangeOrder w n (map_to_list (lh_Audits lr))) in *.
  split.
  - intros Hnil id a Hlook.
    assert (Hin : (id, a) ∈ entries)
      by (rewrite Hperm; by apply elem_of_map_to_list).
    apply (specIssues_nil id a).
    destruct (specIssues (id, a)) as [|i l] eqn:Hs; [done|]. exfalso.
    assert (Hi : i ∈ flat_map specIssues entries).
    { apply list_elem_of_In, in_flat_map. exists (id, a).
      split; [by apply list_elem_of_In|]. rewrite Hs. by left. }
    rewrite Hnil in Hi. by apply elem_of_nil in Hi.
  - intros Hall.
    destruct (flat_map specIssues entries) as [|i l] eqn:Hf; [done|]. exfalso.
    assert (Hi : i ∈ flat_map specIssues entries) by (rewrite Hf; by left).
    apply list_elem_of_In, in_flat_map in Hi as ([id a] & Hin & Hi).
    apply list_elem_of_In in Hin. rewrite Hperm in Hin.
    apply elem_of_map_to_list in Hin.
    pose proof (proj2 (specIssues_nil id a) (Hall id a Hin)) as Hn.
    rewrite Hn in Hi. done.
Qed.

Lemma scanPage_no_issues_iff_witness :
  let s := NewAccessibilityScanner "key" pageA 50 0 5 in
  lighthouseGet sampleWorld 0 pageA (apiKey s)
    = GetResp http_StatusOK "" (DecodeOk sampleAudits)
  ∧ rangeOrder sampleWorld 0 (map_to_list (lh_Audits sampleAudits))
      ≡ₚ map_to_list (lh_Audits sampleAudits)
  ∧ Issues (scanPageWithLighthouse sampleWorld 0 s pageA) ≠ []
  ∧ lh_Audits sampleAudits !! "html-has-lang"
    = Some (mkAudit "binary" 0%float []).
Proof.
  intros s.
  assert (Hget : lighthouseGet sampleWorld 0 pageA (apiKey s)
                 = GetResp http_StatusOK "" (DecodeOk sampleAudits))
    by reflexivity.
  assert (Hperm : rangeOrder sampleWorld 0 (map_to_list (lh_Audits sampleAudits))
                  ≡ₚ map_to_list (lh_Audits sampleAudits))
    by apply reverse_Permutation.
  assert (Hlook : lh_Audits sampleAudits !! "html-has-lang"
                  = Some (mkAudit "binary" 0%float [])) by reflexivity.
  split_and!; [done | done | | done].
  intros Hnil.
  pose proof (proj1 (scanPage_no_issues_iff sampleWorld 0 s pageA ""
                       sampleAudits Hget Hperm) Hnil _ _ Hlook) as H.
  vm_compute in H. discriminate.
Defined.

End Extraction.

(** * Further properties of the scan handler *)

Section Handler.

Implicit Types (h : Host) (w : World) (r : Request) (req : ScanRequest).

Lemma getAPIKey_empty h :
  getAPIKey h = ""
  <-> getenv h "GOOGLE_API_KEY" = "" ∧ getenv h "PAGESPEED_API_KEY" = ""
      ∧ getenv h "LIGHTHOUSE_API_KEY" = "".
Proof.
  unfold getAPIKey.
  destruct (String.eqb_spec (getenv h "GOOGLE_API_KEY") "") as [-> | H1];
    cbn [negb]; [|tauto].
  destruct (String.eqb_spec (getenv h "PAGESPEED_API_KEY") "") as [-> | H2];
    cbn [negb]; [|tauto].
  destruct (String.eqb_spec (getenv h "LIGHTHOUSE_API_KEY") "") as [-> | H3];
    cbn [negb]; tauto.
Qed.

Lemma validateRanges_none req :
  validateRanges (setDefaults req) = None
  <-> (0 <= req_MaxPages req <= 1000)%Z ∧ (0 <= req_Limit req <= 100)%Z
      ∧ (0 <= req_Offset req)%Z.
Proof.
  unfold validateRanges, setDefaults; cbn.
  destruct (req_MaxPages req =? 0)%Z eqn:E;
    [apply Z.eqb_eq in E | apply Z.eqb_neq in E];
    (destruct (req_Limit req =? 0)%Z eqn:E';
      [apply Z.eqb_eq in E' | apply Z.eqb_neq in E']);
    repeat match goal with
           | |- context [(?a <? ?b)%Z] => destruct (Z.ltb_spec a b)
           end; cbn [orb]; split; try done; try lia.
Qed.

(** The handler starts a scan exactly for a POST request whose body
    decodes, with a non-empty URL that parses, [max_pages] in [0, 1000],
    [limit] in [0, 100], a non-negative offset, and an API key in the
    environment; the report is then that of a fresh scanner on that URL,
    with 50 and 5 in place of a zero [max_pages] and [limit]. *)
Theorem handleScan_accepts_iff h w r res :
  handleScan h w r = inr res
  <-> Method r = "POST"
      ∧ exists body req,
          Body r = Some body
          ∧ decodeScanRequest (wordSize h) body = Some req
          ∧ req_URL req ≠ "" ∧ urlParses h (req_URL req) = true
          ∧ (0 <= req_MaxPages req <= 1000)%Z
          ∧ (0 <= req_Limit req <= 100)%Z
          ∧ (0 <= req_Offset req)%Z
          ∧ getAPIKey h ≠ ""
          ∧ res = crawlAndScan w
                    (NewAccessibilityScanner (getAPIKey h) (req_URL req)
                       (if (req_MaxPages req =? 0)%Z then 50%Z
                        else req_MaxPages req)
                       (req_Offset req)
                       (if (req_Limit req =? 0)%Z then 5%Z
                        else req_Limit req)).
Proof.
  destruct r as [m b]. cbn [Method Body].
  destruct (String.eqb_spec m "POST") as [-> | Hm].
  2:{ unfold handleScan. cbn [Method].
      rewrite (proj2 (String.eqb_neq m "POST") Hm). cbn [negb].
      split; [discriminate | by intros [? _]]. }
  destruct b as [body|].
  2:{ split; [discriminate | by intros (_ & body & req & ? & _)]. }
  destruct (decodeScanRequest (wordSize h) body) as [req|] eqn:Hdec.
  2:{ unfold handleScan. cbn. rewrite Hdec.
      split; [discriminate|]. intros (_ & body' & req & [= <-] & Hd & _).
      congruence. }
  rewrite (handleScan_post h w body req Hdec).
  destruct (String.eqb_spec (req_URL req) "") as [Hu | Hu].
  { split; [discriminate|].
    intros (_ & body' & req' & [= <-] & Hd & Hne & _). congruence. }
  destruct (urlParses h (req_URL req)) eqn:Hp; cbn [negb].
  2:{ split; [discriminate|].
      intros (_ & body' & req' & [= <-] & Hd & _ & Hp' & _). congruence. }
  destruct (validateRanges (setDefaults req)) as [e|] eqn:Hval.
  { split; [discriminate|].
    intros (_ & body' & req' & [= <-] & Hd & _ & _ & H1 & H2 & H3 & _).
    assert (req' = req) as -> by congruence.
    assert (validateRanges (setDefaults req) = None)
      by (by apply validateRanges_none). congruence. }
  apply validateRanges_none in Hval as (H1 & H2 & H3).
  destruct (String.eqb_spec (getAPIKey h) "") as [Hk | Hk].
  { split; [discriminate|].
    intros (_ & body' & req' & _ & _ & _ & _ & _ & _ & _ & Hk' & _). done. }
  split.
  - intros [= <-]. split; [done|]. exists body, req.
    split_and!; try done; lia.
  - intros (_ & body' & req' & [= <-] & Hd & _ & _ & _ & _ & _ & _ & ->).
    by assert (req' = req) as -> by congruence.
Qed.

(** What a rejection tells the client: status 405 for any method but
    POST; for a POST request status 400, or status 500, the latter only
    when none of [GOOGLE_API_KEY], [PAGESPEED_API_KEY] and
    [LIGHTHOUSE_API_KEY] is set in the environment. *)
Theorem handleScan_rejections h w r e :
  handleScan h w r = inl e ->
  (err_Code e = 405%Z ∧ Method r ≠ "POST")
  ∨ (err_Code e = 400%Z ∧ Method r = "POST")
  ∨ (err_Code e = 500%Z ∧ Method r = "POST"
     ∧ getenv h "GOOGLE_API_KEY" = "" ∧ getenv h "PAGESPEED_API_KEY" = ""
     ∧ getenv h "LIGHTHOUSE_API_KEY" = "").
Proof.
  intros H. destruct r as [m b]. cbn [Method].
  destruct (String.eqb_spec m "POST") as [-> | Hm].
  2:{ unfold handleScan in H. cbn [Method] in H.
      rewrite (proj2 (String.eqb_neq m "POST") Hm) in H. cbn [negb] in H.
      injection H as <-. by left. }
  right. destruct b as [body|]; [|injection H as <-; by left].
  destruct (decodeScanRequest (wordSize h) body) as [req|] eqn:Hdec.
  2:{ unfold handleScan in H. cbn in H. rewrite Hdec in H.
      injection H as <-. by left. }
  rewrite (handleScan_post h w body req Hdec) in H.
  destruct (String.eqb (req_URL req) ""); [injection H as <-; by left|].
  destruct (negb (urlParses h (req_URL req))); [injection H as <-; by left|].
  destruct (validateRanges (setDefaults req)) as [e'|] eqn:Hval.
  { injection H as <-. left. split; [|done]. unfold validateRanges in Hval.
    repeat match type of Hval with
           | (if ?b then _ else _) = _ => destruct b
           end; by simplify_eq. }
  destruct (String.eqb_spec (getAPIKey h) "") as [Hk | Hk]; [|discriminate].
  injection H as <-. right. split_and!; try done; by apply getAPIKey_empty.
Qed.

Lemma handleScan_rejections_witness :
  let e := sendError "Invalid limit" http_StatusBadRequest
                     "limit must be between 1 and 100" in
  handleScan sampleHost downWorld
    (postScan (Some pageA) None None (Some 101%Z)) = inl e
  ∧ ((err_Code e = 405%Z ∧ ("POST" : string) ≠ "POST")
     ∨ (err_Code e = 400%Z ∧ ("POST" : string) = "POST")
     ∨ (err_Code e = 500%Z ∧ ("POST" : string) = "POST"
        ∧ getenv sampleHost "GOOGLE_API_KEY" = ""
        ∧ getenv sampleHost "PAGESPEED_API_KEY" = ""
        ∧ getenv sampleHost "LIGHTHOUSE_API_KEY" = "")).
Proof.
  intros e.
  assert (H : handleScan sampleHost downWorld
                (postScan (Some pageA) None None (Some 101%Z)) = inl e)
    by (vm_compute; reflexivity).
  split; [done|]. exact (handleScan_rejections _ _ _ _ H).
Defined.

End Handler.

(** * The environment file *)

Section EnvFile.

Implicit Types (l r t : list ascii) (runes : list (list ascii)).

Lemma startsWith_app r l :
  startsWith r l = true <-> exists t, l = r ++ t.
Proof.
  revert l. induction r as [|c r IH]; intros [|d l]; simpl.
  - split; [exists []; reflexivity | reflexivity].
  - split; [exists (d :: l); reflexivity | reflexivity].
  - split; [discriminate | intros [t Ht]; discriminate].
  - rewrite andb_true_iff, Ascii.eqb_eq, IH. split.
    + intros [-> [t ->]]. exists t. reflexivity.
    + intros [t Ht]. injection Ht as -> ->. split; [reflexivity | eauto].
Qed.

Lemma startsWith_one (q : ascii) l :
  startsWith [q] l = true <-> exists t, l = q :: t.
Proof. apply (startsWith_app [q]). Qed.


Lemma stripRune_Some runes l l' :
  stripRune runes l = Some l' -> exists r, r ∈ runes /\ l = r ++ l'.
Proof.
  induction runes as [|r runes IH]; simpl; [discriminate|].
  destruct (startsWith r l) eqn:Hr.
  - intros [= <-]. apply startsWith_app in Hr as [t ->].
    exists r. split; [left|].
    rewrite drop_app_length. reflexivity.
  - intros H. destruct (IH H) as (r' & Hin & Hl).
    exists r'. split; [right; exact Hin | exact Hl].
Qed.

Lemma stripRune_None runes l :
  stripRune runes l = None <-> forall r, r ∈ runes -> startsWith r l = false.
Proof.
  induction runes as [|r runes IH]; simpl.
  - split; [intros _ r Hr; inversion Hr | reflexivity].
  - destruct (startsWith r l) eqn:Hr.
    + split; [discriminate|]. intros H.
      specialize (H r (list_elem_of_here _ _)). congruence.
    + rewrite IH. split.
      * intros H r' Hr'. apply elem_of_cons in Hr' as [->|Hr']; auto.
      * intros H r' Hr'. apply H. right. exact Hr'.
Qed.

Lemma trimStart_suffix runes fuel l :
  exists a, l = a ++ trimStart runes fuel l.
Proof.
  revert l. induction fuel as [|fuel IH]; intros l; simpl.
  - exists []. reflexivity.
  - destruct (stripRune runes l) as [l'|] eqn:Hs.
    + apply stripRune_Some in Hs as (r & _ & ->).
      destruct (IH l') as [a Ha]. exists (r ++ a).
      rewrite <- app_assoc, <- Ha. reflexivity.
    + exists []. reflexivity.
Qed.

(** The fuel [length l] is enough: what [trimStart] returns starts with
    no rune of [runes]. *)
Lemma trimStart_done runes fuel l :
  (forall r, r ∈ runes -> r <> []) ->
  (length l <= fuel)%nat ->
  stripRune runes (trimStart runes fuel l) = None.
Proof.
  intros Hne. revert l. induction fuel as [|fuel IH]; intros l Hl; simpl.
  - destruct l; [|simpl in Hl; lia].
    apply stripRune_None. intros r Hr.
    specialize (Hne r Hr). destruct r; [congruence | reflexivity].
  - destruct (stripRune runes l) as [l'|] eqn:Hs; [|exact Hs].
    apply IH. apply stripRune_Some in Hs as (r & Hr & ->).
    specialize (Hne r Hr). destruct r; [congruence|].
    rewrite length_app in Hl. simpl in Hl. lia.
Qed.

Lemma spaceRunes_nonempty r : r ∈ spaceRunes -> r <> [].
Proof.
  revert r. apply Forall_forall. unfold spaceRunes. simpl.
  repeat (apply Forall_cons; split; [discriminate|]). apply Forall_nil.
  exact I.
Qed.

Lemma spaceRunes_rev_nonempty r : r ∈ reverse <$> spaceRunes -> r <> [].
Proof.
  intros Hr. apply list_elem_of_fmap in Hr as (r' & -> & Hr').
  apply spaceRunes_nonempty in Hr'. destruct r'; [congruence|].
  rewrite reverse_cons. intros H. apply app_eq_nil in H as [_ H].
  discriminate.
Qed.

(** [TrimSpace l] is a contiguous part of [l]. *)
Lemma TrimSpace_infix l : exists a b, l = a ++ TrimSpace l ++ b.
Proof.
  unfold TrimSpace.
  destruct (trimStart_suffix spaceRunes (length l) l) as [a Ha].
  set (l1 := trimStart spaceRunes (length l) l) in *.
  destruct (trimStart_suffix (reverse <$> spaceRunes) (length l1)
              (reverse l1)) as [b Hb].
  set (l2 := trimStart (reverse <$> spaceRunes) (length l1) (reverse l1)) in *.
  exists a, (reverse b). rewrite Ha at 1. f_equal.
  rewrite <- reverse_app, <- Hb, reverse_involutive. reflexivity.
Qed.

(** [TrimSpace l] neither starts nor ends with a white space code
    point. *)
Lemma TrimSpace_trimmed l :
  leadingSpace (TrimSpace l) = false /\ trailingSpace (TrimSpace l) = false.
Proof.
  unfold leadingSpace, trailingSpace, TrimSpace.
  set (l1 := trimStart spaceRunes (length l) l).
  assert (H1 : stripRune spaceRunes l1 = None)
    by (apply trimStart_done; [apply spaceRunes_nonempty | lia]).
  assert (H2 : stripRune (reverse <$> spaceRunes)
                 (trimStart (reverse <$> spaceRunes) (length l1) (reverse l1))
               = None).
  { apply trimStart_done; [apply spaceRunes_rev_nonempty|].
    rewrite length_reverse. lia. }
  destruct (trimStart_suffix (reverse <$> spaceRunes) (length l1)
              (reverse l1)) as [b Hb].
  set (l2 := trimStart (reverse <$> spaceRunes) (length l1) (reverse l1)) in *.
  split.
  - destruct (stripRune spaceRunes (reverse l2)) as [t|] eqn:Hs; [|reflexivity].
    apply stripRune_Some in Hs as (r & Hr & Ht).
    assert (Hl1 : l1 = r ++ t ++ reverse b).
    { rewrite <- (reverse_involutive l1), Hb, reverse_app, Ht, <- app_assoc.
      reflexivity. }
    exfalso.
    pose proof (proj1 (stripRune_None _ _) H1 r Hr) as Hf.
    rewrite (proj2 (startsWith_app r l1)) in Hf; [discriminate|].
    eexists. exact Hl1.
  - rewrite reverse_involutive, H2. reflexivity.
Qed.



Lemma splitEq_Some l p0 p1 :
  splitEq l = Some (p0, p1) <-> l = p0 ++ eqSign :: p1 /\ eqSign ∉ p0.
Proof.
  revert p0. induction l as [|c l IH]; intros p0; simpl.
  - split; [discriminate|]. intros [H _]. destruct p0; discriminate.
  - destruct (Ascii.eqb c eqSign) eqn:Hc.
    + apply Ascii.eqb_eq in Hc as ->. split.
      * intros [= <- <-]. split; [reflexivity | apply not_elem_of_nil].
      * intros [H Hn]. destruct p0 as [|d p0].
        -- injection H as ->. reflexivity.
        -- injection H as <- _. exfalso. apply Hn. left.
    + apply Ascii.eqb_neq in Hc. split.
      * destruct (splitEq l) as [[q0 q1]|] eqn:Hs; [|discriminate].
        intros [= <- <-]. destruct (proj1 (IH q0) eq_refl) as [-> Hn].
        split; [reflexivity|].
        apply not_elem_of_cons. split; [congruence | exact Hn].
      * intros [H Hn]. destruct p0 as [|d p0].
        -- injection H as -> _. congruence.
        -- injection H as <- ->.
           apply not_elem_of_cons in Hn as [_ Hn].
           rewrite (proj2 (IH p0) (conj eq_refl Hn)). reflexivity.
Qed.

Lemma quoted_short l :
  quoted l = true -> (length l < 2)%nat ->
  exists q, (q = dquote \/ q = squote) /\ l = [q].
Proof.
  unfold quoted. intros H Hl.
  apply orb_true_iff in H as [H|H]; apply andb_true_iff in H as [H _];
    apply startsWith_one in H as [t ->]; simpl in Hl;
    (destruct t; [|simpl in Hl; lia]); eauto.
Qed.





(** When a line panics. *)
Lemma envLine_panics_iff text : envLine text = LinePanic <-> loneQuote text.
Proof.
  unfold envLine, loneQuote. set (line := TrimSpace text). split.
  - destruct (bool_decide (line = []) || startsWith [hashSign] line) eqn:Hc;
      [discriminate|].
    apply orb_false_iff in Hc as [_ Hh].
    destruct (splitEq line) as [[p0 p1]|] eqn:Hs; [|discriminate].
    apply splitEq_Some in Hs as [Hline Hn].
    destruct (quoted (TrimSpace p1)) eqn:Hq; [|discriminate].
    destruct (length (TrimSpace p1) <? 2)%nat eqn:Hlen; [|discriminate].
    intros _. apply Nat.ltb_lt in Hlen.
    destruct (quoted_short _ Hq Hlen) as (q & Hqq & Hv).
    exists p0, p1, q. split_and!; try done.
    intros Hhead. destruct line as [|c line']; [discriminate|].
    injection Hhead as ->.
    rewrite (proj2 (startsWith_one hashSign (hashSign :: line'))) in Hh;
      [discriminate | eauto].
  - intros (p0 & p1 & q & Hline & Hn & Hhead & Hq & Hv).
    assert (Hne : bool_decide (line = []) = false).
    { apply bool_decide_eq_false. rewrite Hline. destruct p0; discriminate. }
    assert (Hh : startsWith [hashSign] line = false).
    { destruct (startsWith [hashSign] line) eqn:E; [|reflexivity].
      apply startsWith_one in E as [t Ht]. rewrite Ht in Hhead.
      exfalso. apply Hhead. reflexivity. }
    rewrite Hne, Hh. simpl.
    rewrite (proj2 (splitEq_Some line p0 p1) (conj Hline Hn)).
    rewrite Hv. destruct Hq as [-> | ->]; reflexivity.
Qed.

Lemma loadLines_panics lines :
  snd (loadLines lines) = true <->
  exists text, text ∈ lines /\ envLine text = LinePanic.
Proof.
  induction lines as [|text lines IH]; simpl.
  - split; [discriminate | intros (t & Ht & _); inversion Ht].
  - destruct (envLine text) as [|key value|] eqn:He.
    + rewrite IH. split.
      * intros (t & Ht & Hp). exists t. split; [right; exact Ht | exact Hp].
      * intros (t & Ht & Hp). apply elem_of_cons in Ht as [->|Ht];
          [congruence | eauto].
    + destruct (loadLines lines) as [calls panicked]. simpl in *.
      rewrite IH. split.
      * intros (t & Ht & Hp). exists t. split; [right; exact Ht | exact Hp].
      * intros (t & Ht & Hp). apply elem_of_cons in Ht as [->|Ht];
          [congruence | eauto].
    + simpl. split; [|reflexivity]. intros _. exists text.
      split; [left | exact He].
Qed.

Lemma loadLines_calls lines :
  snd (loadLines lines) = false -> fst (loadLines lines) = omap lineCall lines.
Proof.
  induction lines as [|text lines IH]; simpl; [reflexivity|].
  unfold lineCall at 1. destruct (envLine text) as [|key value|] eqn:He.
  - exact IH.
  - destruct (loadLines lines) as [calls panicked]. simpl in *.
    intros H. rewrite (IH H). reflexivity.
  - discriminate.
Qed.

(** [loadEnvFile] panics exactly on a file that has a line whose value
    is a lone quote character: the slice [value[1 : len(value)-1]] is
    then [value[1:0]].  On any other file it returns the error of the
    scanner after one [os.Setenv] per line of the form [key=value], in
    the order of the lines. *)
Theorem loadEnvFile_panics_iff lines scanErr :
  (snd (loadEnvFile (OpenFile lines scanErr)) = LoadPanics <->
   exists text, text ∈ lines /\ loneQuote text) /\
  ((forall text, text ∈ lines -> ~ loneQuote text) ->
   loadEnvFile (OpenFile lines scanErr)
   = (omap lineCall lines, LoadReturns scanErr)).
Proof.
  unfold loadEnvFile.
  pose proof (loadLines_panics lines) as Hp.
  pose proof (loadLines_calls lines) as Hc.
  destruct (loadLines lines) as [calls panicked]. simpl in *. split.
  - split.
    + intros H. destruct panicked; [|discriminate].
      destruct (proj1 Hp eq_refl) as (t & Ht & He).
      exists t. split; [exact Ht | apply envLine_panics_iff; exact He].
    + intros (t & Ht & Hl). apply envLine_panics_iff in Hl.
      rewrite (proj2 Hp); [reflexivity | eauto].
  - intros Hno. destruct panicked.
    + destruct (proj1 Hp eq_refl) as (t & Ht & He).
      apply envLine_panics_iff in He. destruct (Hno t Ht He).
    + rewrite (Hc eq_refl). reflexivity.
Qed.



(** The key that [loadEnvFile] passes to [os.Setenv] is a contiguous
    part of the line that lies before an [=], holds no [=] itself, and
    neither starts nor ends with a white space code point; the value is
    a contiguous part of the line. *)
Theorem envLine_key_trimmed text (k v : list ascii) :
  envLine text = LineSetenv k v ->
  (eqSign ∉ k) /\ leadingSpace k = false /\ trailingSpace k = false /\
  (exists a b, text = a ++ k ++ b /\ eqSign ∈ b) /\
  (exists a b, text = a ++ v ++ b).
Proof.
  unfold envLine.
  destruct (TrimSpace_infix text) as (a & b & Htext).
  set (line := TrimSpace text) in *.
  destruct (bool_decide (line = []) || startsWith [hashSign] line);
    [discriminate|].
  destruct (splitEq line) as [[p0 p1]|] eqn:Hs; [|discriminate].
  apply splitEq_Some in Hs as [Hline Hn].
  destruct (TrimSpace_infix p0) as (a0 & b0 & Hp0).
  destruct (TrimSpace_infix p1) as (a1 & b1 & Hp1).
  destruct (TrimSpace_trimmed p0) as [Hl Ht].
  assert (Hkey : forall v', LineSetenv (TrimSpace p0) v' = LineSetenv k v ->
            (eqSign ∉ k) /\ leadingSpace k = false /\ trailingSpace k = false /\
            (exists a b, text = a ++ k ++ b /\ eqSign ∈ b) /\ v' = v).
  { intros v' [= <- <-]. split_and!; try done.
    - intros Hin. apply Hn. rewrite Hp0.
      apply elem_of_app. right. apply elem_of_app. left. exact Hin.
    - exists (a ++ a0), (b0 ++ eqSign :: p1 ++ b). split.
      + rewrite Htext, Hline. rewrite Hp0 at 1.
        repeat (rewrite <- app_assoc || rewrite <- app_comm_cons). reflexivity.
      + apply elem_of_app. right. left. }
  assert (Hval : exists a' b', text = a' ++ TrimSpace p1 ++ b').
  { exists (a ++ p0 ++ eqSign :: a1), (b1 ++ b).
    rewrite Htext, Hline. rewrite Hp1 at 1.
    repeat (rewrite <- app_assoc || rewrite <- app_comm_cons). reflexivity. }
  destruct (quoted (TrimSpace p1)) eqn:Hq.
  - destruct (length (TrimSpace p1) <? 2)%nat eqn:Hlen; [discriminate|].
    intros H. destruct (Hkey _ H) as (H1 & H2 & H3 & H4 & <-).
    split_and!; try done.
    destruct Hval as (a' & b' & Hv).
    set (val := TrimSpace p1) in *.
    exists (a' ++ take 1 val),
      (drop (length val - 2) (drop 1 val) ++ b').
    rewrite Hv. rewrite <- !app_assoc. f_equal.
    rewrite (app_assoc (take 1 val)).
    rewrite (app_assoc _ _ b'). f_equal.
    rewrite <- app_assoc, take_drop, take_drop. reflexivity.
  - intros H. destruct (Hkey _ H) as (H1 & H2 & H3 & H4 & <-).
    split_and!; done.
Qed.

Lemma envLine_key_trimmed_witness :
  envLine (bytes "  GOOGLE_API_KEY = secret  ")
  = LineSetenv (bytes "GOOGLE_API_KEY") (bytes "secret") /\
  ((eqSign ∉ bytes "GOOGLE_API_KEY") /\
   leadingSpace (bytes "GOOGLE_API_KEY") = false /\
   trailingSpace (bytes "GOOGLE_API_KEY") = false /\
   (exists a b,
      bytes "  GOOGLE_API_KEY = secret  "
      = a ++ bytes "GOOGLE_API_KEY" ++ b /\ eqSign ∈ b) /\
   (exists a b,
      bytes "  GOOGLE_API_KEY = secret  " = a ++ bytes "secret" ++ b)).
Proof.
  assert (H : envLine (bytes "  GOOGLE_API_KEY = secret  ")
              = LineSetenv (bytes "GOOGLE_API_KEY") (bytes "secret"))
    by (vm_compute; reflexivity).
  split; [exact H|]. exact (envLine_key_trimmed _ _ _ H).
Defined.

End EnvFile.
